(** * mini-mandelbrot: a shallow embedding of the render engine

    The C program renders the Mandelbrot set into a shared pixel buffer
    with a pool of four POSIX threads and MPFR arithmetic at 128 bits.
    This development embeds

    - the palette ([get_color]);
    - the MPFR operations the program calls, at precision [PBITS] and with
      rounding toward minus infinity ([MPFR_RNDD]), and the division of
      doubles that maps a pixel to a point of the plane;
    - the per-pixel escape-time loop of [compute_mandelbrot_sub];
    - the viewport update of [key_callback];
    - the thread pool: slot table, live count, raster buffer, the main
      thread and the compute threads, as a transition system.  A step of
      the system is one atomic section of one thread: a critical section
      on [live_threads_mutex] or on [pixbuf_mutex], or a piece of code of
      the main thread between two of them.

    The theorems state the properties of the specification over these
    definitions; each names the claim it settles.  The last part,
    "Further properties of the code", proves what the code shows beyond
    the claims (X1, X2, ...): the palette in closed form, the slot finder
    [get_thr_slot], the raster reset, the order and the composition of
    the viewport updates, the map from pixels to points, the escape test,
    what a compute thread touches, the way out of the program, and the
    correctness of a pass that is not interrupted. *)

From Stdlib Require Import ZArith QArith Qpower Lia Lqa String.
From stdpp Require Import base list list_numbers relations.

Local Open Scope Z_scope.

(** ** Compile-time parameters *)

Definition WIDTH : Z := 1366.
Definition HEIGHT : Z := 768.
Definition MBR_MAX_ITERATIONS : Z := 256.
Definition MBR_DIVERGE_THRESHOLD : Z := 4.
Definition PBITS : Z := 128.
Definition THR_MAX_ACTIVE : Z := 4.

(** ** Pixels and the palette *)

(** [struct _pixel]: four [uint8_t] channels, each kept as a [Z] in
    [0, 256). *)
Record pixel := Pixel { pr : Z; pg : Z; pb : Z; pa : Z }.

Definition pix_white : pixel := Pixel 0xFF 0xFF 0xFF 0xFF.
Definition pix_black : pixel := Pixel 0x00 0x00 0x00 0x00.

#[global] Instance pixel_eq_dec : EqDecision pixel.
Proof. solve_decision. Defined.

(** Conversion of an [int] to [uint8_t]: reduction modulo 256. *)
Definition to_uint8 (v : Z) : Z := v mod 256.

(** [get_color].  [int] arithmetic is on [Z] (for [ind] in [0, 256] no
    intermediate value leaves the range of [int]); [/] on [int] truncates
    toward zero, which is [Z.quot]; the assignments to the [uint8_t] fields
    convert with [to_uint8].  [output] starts as [{0}], so the channels a
    branch does not assign stay 0: the alpha channel is never assigned. *)
Definition get_color (ind : Z) : pixel :=
  let seg_size := MBR_MAX_ITERATIONS ÷ 3 in
  if ind =? MBR_MAX_ITERATIONS then pix_black
  else if ind >=? seg_size * 2 then
    Pixel 0 0 (to_uint8 (0xFF - (ind - seg_size * 3) * 0xFF ÷ seg_size)) 0
  else if ind >=? seg_size then
    Pixel 0
          (to_uint8 (0xFF - (ind - seg_size * 2) * 0xFF ÷ seg_size))
          (to_uint8 ((ind - seg_size * 2) * 0xFF ÷ seg_size))
          0
  else
    Pixel (to_uint8 (0xFF - (ind - seg_size) * 0xFF ÷ seg_size))
          (to_uint8 ((ind - seg_size) * 0xFF ÷ seg_size))
          0
          0.

(** The three bands as the specification words them, for a division [dv]
    and with every channel value stored in a byte.  [S = M / 3]. *)
Definition band_palette (dv : Z → Z → Z) (n : Z) : pixel :=
  let M := 256 in
  let S := dv M 3 in
  if decide (0 <= n < S) then
    {| pr := (255 - dv ((n - S) * 255) S) mod 256;
       pg := (dv ((n - S) * 255) S) mod 256;
       pb := 0; pa := 0 |}
  else if decide (S <= n < 2 * S) then
    {| pr := 0;
       pg := (255 - dv ((n - 2 * S) * 255) S) mod 256;
       pb := (dv ((n - 2 * S) * 255) S) mod 256;
       pa := 0 |}
  else
    {| pr := 0; pg := 0;
       pb := (255 - dv ((n - 3 * S) * 255) S) mod 256;
       pa := 0 |}.

(** ** MPFR numbers and doubles

    Every [mpfr_t] of the program is initialised with [mpfr_init2 (_, PBITS)]
    and every operation is called with [MPFR_RNDD].  A number is a dyadic
    rational [mant * 2 ^ expo]; an operation computes the exact result and
    rounds it toward minus infinity to [PBITS] significant bits.  The
    exponent is unbounded (MPFR's default range of about 2^62 binades is
    out of reach of the program), and the signed zeros, infinities and NaN
    of MPFR do not occur.  A C [double] is a dyadic rational as well. *)
Record dyadic := Dy { mant : Z; expo : Z }.

(** Number of bits of a mantissa: [-2^n <= m < 2^n] iff [bitlen m <= n]
    (for [n >= 1]). *)
Definition bitlen (m : Z) : Z := Z.log2 (if m <? 0 then - m - 1 else m) + 1.

(** Rounding toward minus infinity to [p] bits: drop the [k] low bits
    that do not fit, flooring the mantissa. *)
Definition rndd (p : Z) (x : dyadic) : dyadic :=
  let k := bitlen (mant x) - p in
  if k <=? 0 then x else Dy (Z.shiftr (mant x) k) (expo x + k).

(** Exact operations on dyadic rationals. *)
Definition ex_add (x y : dyadic) : dyadic :=
  let e := Z.min (expo x) (expo y) in
  Dy (mant x * 2 ^ (expo x - e) + mant y * 2 ^ (expo y - e)) e.

Definition ex_neg (x : dyadic) : dyadic := Dy (- mant x) (expo x).

Definition ex_sub (x y : dyadic) : dyadic := ex_add x (ex_neg y).

Definition ex_mul (x y : dyadic) : dyadic :=
  Dy (mant x * mant y) (expo x + expo y).

(** Sign of [x - y] as [mpfr_cmp] returns it: negative, zero or positive. *)
Definition dy_cmp (x y : dyadic) : Z := Z.sgn (mant (ex_sub x y)).

(** The MPFR calls of the program, all at [PBITS] bits and [MPFR_RNDD]. *)
Definition mpfr_set (x : dyadic) : dyadic := rndd PBITS x.
Definition mpfr_set_d (d : dyadic) : dyadic := rndd PBITS d.
Definition mpfr_add (x y : dyadic) : dyadic := rndd PBITS (ex_add x y).
Definition mpfr_sub (x y : dyadic) : dyadic := rndd PBITS (ex_sub x y).
Definition mpfr_mul (x y : dyadic) : dyadic := rndd PBITS (ex_mul x y).
Definition mpfr_mul_d (x d : dyadic) : dyadic := rndd PBITS (ex_mul x d).
Definition mpfr_cmp_d (x d : dyadic) : Z := dy_cmp x d.

(** [mpfr_div_d]: the quotient by a nonzero double, rounded down.  The
    numerator is scaled by [2^s] so that the floored integer quotient has
    more than [PBITS] bits; flooring it again to [PBITS] bits is then the
    rounding of the real quotient. *)
Definition mpfr_div_d (x d : dyadic) : dyadic :=
  let s := Z.max 0 (PBITS + 1 + Z.log2 (Z.abs (mant d)) - Z.log2 (Z.abs (mant x))) in
  rndd PBITS (Dy ((mant x * 2 ^ s) / mant d) (expo x - expo d - s)).

(** Doubles.  An [int] converts exactly; the literals are written as
    dyadics. *)
Definition double_of_int (n : Z) : dyadic := Dy n 0.
Definition d_0_0 : dyadic := Dy 0 0.
Definition d_2_0 : dyadic := Dy 1 1.

(** Division of two doubles (the divisor nonzero), IEEE 754 binary64 in
    the normal range: the quotient rounded to nearest, ties to even, at 53
    bits.  [q] is the floored quotient of the magnitudes with at least 55
    bits, [sticky] tells whether that division left a remainder. *)
Definition double_div (a b : dyadic) : dyadic :=
  let na := Z.abs (mant a) in
  let nb := Z.abs (mant b) in
  if na =? 0 then d_0_0 else
  let s := Z.max 0 (55 + Z.log2 nb - Z.log2 na) in
  let q := (na * 2 ^ s) / nb in
  let sticky := negb ((na * 2 ^ s) mod nb =? 0) in
  let k := Z.log2 q + 1 - 53 in
  let low := q mod 2 ^ k in
  let half := 2 ^ (k - 1) in
  let m0 := q / 2 ^ k in
  let up := (half <? low) || ((low =? half) && (sticky || Z.odd m0)) in
  let m := if up then m0 + 1 else m0 in
  Dy (Z.sgn (mant a) * Z.sgn (mant b) * m) (expo a - expo b - s + k).

(** The rational a dyadic denotes. *)
Definition to_Q (x : dyadic) : Q := inject_Z (mant x) * (2 ^ expo x)%Q.

(** ** The viewport *)

(** The globals [bound_left], [bound_right], [bound_top], [bound_bottom]. *)
Record bounds := Bounds {
  bound_left : dyadic;
  bound_right : dyadic;
  bound_top : dyadic;
  bound_bottom : dyadic
}.

(** [BOUND_LEFT], [BOUND_RIGHT], [BOUND_TOP], [BOUND_BOTTOM] as doubles. *)
Definition BOUND_LEFT : dyadic := Dy (-5) (-1).
Definition BOUND_RIGHT : dyadic := Dy 1 0.
Definition BOUND_TOP : dyadic := Dy 1 0.
Definition BOUND_BOTTOM : dyadic := Dy (-1) 0.

(** The bounds [main] sets up with [mpfr_set_d]. *)
Definition initial_bounds : bounds :=
  Bounds (mpfr_set_d BOUND_LEFT) (mpfr_set_d BOUND_RIGHT)
         (mpfr_set_d BOUND_TOP) (mpfr_set_d BOUND_BOTTOM).

(** ** The escape-time loop of [compute_mandelbrot_sub] *)

(** [struct _img]: a complex number. *)
Record img := Img { img_r : dyadic; img_i : dyadic }.

(** The complex constant [inp] of pixel [(x, y)]. *)
Definition pixel_point (b : bounds) (x y : Z) : img :=
  let inp_r := mpfr_sub (bound_right b) (bound_left b) in
  let inp_i := mpfr_sub (bound_top b) (bound_bottom b) in
  let inp_r :=
    mpfr_mul_d inp_r (double_div (double_of_int x) (double_of_int (WIDTH - 1))) in
  let inp_i :=
    mpfr_mul_d inp_i (double_div (double_of_int y) (double_of_int (HEIGHT - 1))) in
  let inp_r := mpfr_add inp_r (bound_left b) in
  let inp_i := mpfr_add inp_i (bound_bottom b) in
  Img inp_r inp_i.

(** The start value of [cur]. *)
Definition cur_init : img := Img (mpfr_set_d d_0_0) (mpfr_set_d d_0_0).

(** First half of the loop body: [dist] and [dist2] at the test. *)
Definition mbr_dist (cur : img) : dyadic * dyadic :=
  let dist := mpfr_mul (img_r cur) (img_r cur) in
  let dist2 := mpfr_mul (img_i cur) (img_i cur) in
  let dist := mpfr_add dist dist2 in
  (dist, dist2).

(** The test [mpfr_cmp_d (dist, MBR_DIVERGE_THRESHOLD) >= 0]. *)
Definition mbr_diverged (cur : img) : bool :=
  mpfr_cmp_d (fst (mbr_dist cur)) (double_of_int MBR_DIVERGE_THRESHOLD) >=? 0.

(** Second half of the loop body: the new value of [cur]. *)
Definition mbr_update (inp cur : img) : img :=
  let '(dist, dist2) := mbr_dist cur in
  let dist := mpfr_sub dist dist2 in
  let rt := mpfr_sub dist dist2 in
  let rt := mpfr_add rt (img_r inp) in
  let cur_i := mpfr_mul (img_r cur) (img_i cur) in
  let cur_i := mpfr_mul_d cur_i d_2_0 in
  let cur_i := mpfr_add cur_i (img_i inp) in
  Img rt cur_i.

(** The loop [for (i = 0; i < MBR_MAX_ITERATIONS; ++i)], with [n]
    iterations left; the result is the final [i] and the flag [diverge]. *)
Fixpoint mbr_loop (n : nat) (i : Z) (inp cur : img) : Z * Z :=
  match n with
  | O => (i, 0)
  | S n' =>
      if mbr_diverged cur then (i, 1)
      else mbr_loop n' (i + 1) inp (mbr_update inp cur)
  end.

Definition mbr_iterate (inp : img) : Z * Z :=
  mbr_loop (Z.to_nat MBR_MAX_ITERATIONS) 0 inp cur_init.

(** The value of [i] the colour of pixel [(x, y)] is chosen from. *)
Definition pixel_iterations (b : bounds) (x y : Z) : Z :=
  fst (mbr_iterate (pixel_point b x y)).

(** The value of [cur] at the head of iteration [k]: [k] updates applied
    to the start value. *)
Definition orbit (inp : img) (k : nat) : img :=
  Nat.iter k (mbr_update inp) cur_init.

(** The evaluator as section 4.3 of the specification words it: start at
    [z = (0,0)]; up to [M] times apply the update and, after the update,
    test the threshold; the index of the update whose result passes the
    test is reported, [None] stands for "bounded". *)
Fixpoint spec_loop (n : nat) (i : Z) (inp z : img) : option Z :=
  match n with
  | O => None
  | S n' =>
      let z' := mbr_update inp z in
      if mbr_diverged z' then Some i else spec_loop n' (i + 1) inp z'
  end.

Definition spec_iterate (inp : img) : option Z :=
  spec_loop (Z.to_nat MBR_MAX_ITERATIONS) 0 inp cur_init.

(** ** The viewport update of [key_callback] *)

(** Constants of GLFW/glfw3.h. *)
Definition GLFW_PRESS : Z := 1.
Definition GLFW_KEY_SPACE : Z := 32.
Definition GLFW_KEY_RIGHT : Z := 262.
Definition GLFW_KEY_LEFT : Z := 263.
Definition GLFW_KEY_DOWN : Z := 264.
Definition GLFW_KEY_UP : Z := 265.

(** The bound computations of [key_callback], from the copies into
    [next_bl] .. [next_bt] to the four [mpfr_set] that commit them. *)
Definition next_bounds (key : Z) (b : bounds) : bounds :=
  let next_bl := mpfr_set (bound_left b) in
  let next_br := mpfr_set (bound_right b) in
  let next_bb := mpfr_set (bound_bottom b) in
  let next_bt := mpfr_set (bound_top b) in
  let hdiff := mpfr_sub (bound_right b) (bound_left b) in
  let vdiff := mpfr_sub (bound_top b) (bound_bottom b) in
  let hdiff := mpfr_div_d hdiff d_2_0 in
  let vdiff := mpfr_div_d vdiff d_2_0 in
  let '(next_bl, next_br, next_bb, next_bt) :=
    if key =? GLFW_KEY_LEFT then
      (mpfr_sub (bound_left b) hdiff, mpfr_sub (bound_right b) hdiff,
       next_bb, next_bt)
    else if key =? GLFW_KEY_RIGHT then
      (mpfr_add (bound_left b) hdiff, mpfr_add (bound_right b) hdiff,
       next_bb, next_bt)
    else if key =? GLFW_KEY_UP then
      (next_bl, next_br,
       mpfr_add (bound_bottom b) vdiff, mpfr_add (bound_top b) vdiff)
    else if key =? GLFW_KEY_DOWN then
      (next_bl, next_br,
       mpfr_sub (bound_bottom b) vdiff, mpfr_sub (bound_top b) vdiff)
    else if key =? GLFW_KEY_SPACE then
      let hdiff := mpfr_div_d hdiff d_2_0 in
      let vdiff := mpfr_div_d vdiff d_2_0 in
      (mpfr_add (bound_left b) hdiff, mpfr_sub (bound_right b) hdiff,
       mpfr_add (bound_bottom b) vdiff, mpfr_sub (bound_top b) vdiff)
    else (next_bl, next_br, next_bb, next_bt) in
  Bounds (mpfr_set next_bl) (mpfr_set next_br)
         (mpfr_set next_bt) (mpfr_set next_bb).

(** A value an [mpfr_t] of [PBITS] bits holds without rounding. *)
Definition fits (x : dyadic) : Prop := - 2 ^ PBITS <= mant x < 2 ^ PBITS.

Definition fits_bounds (b : bounds) : Prop :=
  fits (bound_left b) ∧ fits (bound_right b)
  ∧ fits (bound_top b) ∧ fits (bound_bottom b).

(** [lossless x]: rounding [x] to [PBITS] bits drops only zero bits, so
    the MPFR operation whose exact result is [x] is exact. *)
Definition lossless (x : dyadic) : bool :=
  let k := bitlen (mant x) - PBITS in
  (k <=? 0) || (mant x mod 2 ^ k =? 0).

(** Half the width and half the height as the handler computes them. *)
Definition hdiff_of (b : bounds) : dyadic :=
  mpfr_div_d (mpfr_sub (bound_right b) (bound_left b)) d_2_0.
Definition vdiff_of (b : bounds) : dyadic :=
  mpfr_div_d (mpfr_sub (bound_top b) (bound_bottom b)) d_2_0.

(** No subtraction or addition on the path of [key] rounds. *)
Definition key_exact (key : Z) (b : bounds) : bool :=
  let h2 := hdiff_of b in
  let v2 := vdiff_of b in
  let h4 := mpfr_div_d h2 d_2_0 in
  let v4 := mpfr_div_d v2 d_2_0 in
  lossless (ex_sub (bound_right b) (bound_left b))
  && lossless (ex_sub (bound_top b) (bound_bottom b))
  && (if key =? GLFW_KEY_LEFT then
        lossless (ex_sub (bound_left b) h2) && lossless (ex_sub (bound_right b) h2)
      else if key =? GLFW_KEY_RIGHT then
        lossless (ex_add (bound_left b) h2) && lossless (ex_add (bound_right b) h2)
      else if key =? GLFW_KEY_UP then
        lossless (ex_add (bound_bottom b) v2) && lossless (ex_add (bound_top b) v2)
      else if key =? GLFW_KEY_DOWN then
        lossless (ex_sub (bound_bottom b) v2) && lossless (ex_sub (bound_top b) v2)
      else if key =? GLFW_KEY_SPACE then
        lossless (ex_add (bound_left b) h4) && lossless (ex_sub (bound_right b) h4)
        && lossless (ex_add (bound_bottom b) v4) && lossless (ex_sub (bound_top b) v4)
      else true).

(** A viewport at the limit of the precision: its width is one unit in
    the last place of its right bound. *)
Definition narrow_bounds : bounds :=
  Bounds (Dy 1 0) (Dy (2 ^ 127 + 1) (-127)) (Dy 1 0) (Dy 0 0).

(** Width and height of a viewport, as rationals. *)
Definition width_Q (b : bounds) : Q := to_Q (bound_right b) - to_Q (bound_left b).
Definition height_Q (b : bounds) : Q := to_Q (bound_top b) - to_Q (bound_bottom b).

(** A viewport whose left bound is not right of its right bound and whose
    bottom bound is not above its top bound. *)
Definition ordered (b : bounds) : Prop :=
  (to_Q (bound_left b) <= to_Q (bound_right b))%Q
  ∧ (to_Q (bound_bottom b) <= to_Q (bound_top b))%Q.

(** Two viewports that denote the same rectangle. *)
Definition same_view (b b' : bounds) : Prop :=
  (to_Q (bound_left b) == to_Q (bound_left b'))%Q
  ∧ (to_Q (bound_right b) == to_Q (bound_right b'))%Q
  ∧ (to_Q (bound_top b) == to_Q (bound_top b'))%Q
  ∧ (to_Q (bound_bottom b) == to_Q (bound_bottom b'))%Q.

(** The factors [(double) x / (double) (WIDTH - 1)] and
    [(double) y / (double) (HEIGHT - 1)] of [compute_mandelbrot_sub]. *)
Definition col_frac (x : Z) : dyadic :=
  double_div (double_of_int x) (double_of_int (WIDTH - 1)).
Definition row_frac (y : Z) : dyadic :=
  double_div (double_of_int y) (double_of_int (HEIGHT - 1)).

(** ** The engine state

    The globals of the program and the state of its threads. *)

(** [struct _mandelbrot_params]. *)
Record mandelbrot_params := Params {
  p_left : Z; p_right : Z; p_top : Z; p_bottom : Z; thr_index : Z
}.

(** A compute thread ([compute_mandelbrot]):
    - [T_start p]: created, before its [printf];
    - [T_scan p x y]: inside [compute_mandelbrot_sub], at the head of the
      inner loop with the loop variables [x] and [y];
    - [T_release p]: [compute_mandelbrot_sub] has returned, the thread is
      about to take [live_threads_mutex]. *)
Inductive thread :=
  | T_start (p : mandelbrot_params)
  | T_scan (p : mandelbrot_params) (x y : Z)
  | T_release (p : mandelbrot_params).

(** One [printf]: the format string and its integer arguments. *)
Definition line : Type := string * list Z.

(** The atomic sections of the main thread. *)
Inductive action :=
  | A_bounds (key : Z)     (* key_callback: the new bounds, computed and committed *)
  | A_flush (c : pixel)    (* flush_pixels (c) *)
  | A_cancel (i : Z)       (* start_mandelbrot: one turn of the cancel loop *)
  | A_mark (i : Z)         (* start_mandelbrot: the slot is marked live *)
  | A_create (i : Z)       (* start_mandelbrot: printf, pthread_create, failure branch *)
  | A_print (l : line)     (* a printf of main *)
  | A_shutdown (i : Z)     (* main: one turn of the cleanup loop *)
  | A_return (code : Z).   (* main returns *)

Record engine := Engine {
  bnd : bounds;                      (* bound_left .. bound_bottom *)
  pixbuf : list pixel;               (* pixbuf [WIDTH * HEIGHT] *)
  threads : list (option thread);    (* the thread behind threads[i], while it runs *)
  live_threads : list bool;          (* live_threads [THR_MAX_ACTIVE], 0 or 1 *)
  num_live_threads : Z;
  pending : list action;             (* what main does before it is back in its loop *)
  stdout : list line;
  exited : option Z                  (* the exit status, once the process has ended *)
}.

Definition with_bnd (b : bounds) (st : engine) : engine :=
  Engine b (pixbuf st) (threads st) (live_threads st) (num_live_threads st)
         (pending st) (stdout st) (exited st).
Definition with_pixbuf (buf : list pixel) (st : engine) : engine :=
  Engine (bnd st) buf (threads st) (live_threads st) (num_live_threads st)
         (pending st) (stdout st) (exited st).
Definition with_threads (ts : list (option thread)) (st : engine) : engine :=
  Engine (bnd st) (pixbuf st) ts (live_threads st) (num_live_threads st)
         (pending st) (stdout st) (exited st).
Definition with_live (fl : list bool) (n : Z) (st : engine) : engine :=
  Engine (bnd st) (pixbuf st) (threads st) fl n
         (pending st) (stdout st) (exited st).
Definition with_pending (acts : list action) (st : engine) : engine :=
  Engine (bnd st) (pixbuf st) (threads st) (live_threads st) (num_live_threads st)
         acts (stdout st) (exited st).
Definition printf (l : line) (st : engine) : engine :=
  Engine (bnd st) (pixbuf st) (threads st) (live_threads st) (num_live_threads st)
         (pending st) (stdout st ++ [l]) (exited st).

(** [exit (code)], or [main] returning [code]: the process ends, and with
    it every thread. *)
Definition exit (code : Z) (st : engine) : engine :=
  Engine (bnd st) (pixbuf st) (replicate (length (threads st)) None)
         (live_threads st) (num_live_threads st) [] (stdout st) (Some code).

(** ** The raster *)

(** The loop of [flush_pixels]: [c] is written to the first [n] elements
    of the array. *)
Fixpoint fill (c : pixel) (buf : list pixel) (n : nat) {struct buf} : list pixel :=
  match buf with
  | [] => []
  | p :: buf' =>
      match n with
      | O => buf
      | S n' => c :: fill c buf' n'
      end
  end.

(** [flush_pixels]: the loop writes [pixbuf[i]] for [i] from 0 to
    [WIDTH * HEIGHT - 1]. *)
Definition flush_pixels (c : pixel) (buf : list pixel) : list pixel :=
  fill c buf (Z.to_nat (WIDTH * HEIGHT)).

(** The element [pixbuf[y * WIDTH + x]]; [None] outside the array, where
    the C program has no defined behaviour. *)
Definition pixel_index (x y : Z) : Z := y * WIDTH + x.

Definition pixel_at (buf : list pixel) (x y : Z) : option pixel :=
  if pixel_index x y <? 0 then None else buf !! Z.to_nat (pixel_index x y).

(** ** The compute threads *)

(** One step of the thread behind [threads[i]].  A pixel is one step: the
    iteration count is computed from the bounds, then, in one critical
    section on [pixbuf_mutex], the pixel is compared with [pix_white] and
    either painted or found claimed, in which case
    [compute_mandelbrot_sub] returns.  The last step is the critical
    section on [live_threads_mutex]; after it the thread is gone. *)
Definition thread_step (i : nat) (st : engine) : option engine :=
  match threads st !! i with
  | Some (Some (T_start p)) =>
      Some (with_threads (<[i := Some (T_scan p (p_left p) (p_bottom p))]> (threads st))
              (printf ("starting compute thread with sector (%d, %d, %d, %d) index %d\n"%string,
                       [p_left p; p_right p; p_top p; p_bottom p; thr_index p]) st))
  | Some (Some (T_scan p x y)) =>
      if y >? p_top p then
        Some (with_threads (<[i := Some (T_release p)]> (threads st)) st)
      else if x >? p_right p then
        Some (with_threads (<[i := Some (T_scan p (p_left p) (y + 1))]> (threads st)) st)
      else
        let n := pixel_iterations (bnd st) x y in
        match pixel_at (pixbuf st) x y with
        | None => None
        | Some c =>
            if decide (c = pix_white) then
              Some (with_threads (<[i := Some (T_scan p (x + 1) y)]> (threads st))
                      (with_pixbuf (<[Z.to_nat (pixel_index x y) := get_color n]> (pixbuf st)) st))
            else
              Some (with_threads (<[i := Some (T_release p)]> (threads st)) st)
        end
  | Some (Some (T_release p)) =>
      let st :=
        if thr_index p >=? 0 then
          with_live (<[Z.to_nat (thr_index p) := false]> (live_threads st))
                    (num_live_threads st - 1) st
        else st in
      Some (with_threads (<[i := None]> (threads st)) st)
  | _ => None
  end.

(** ** The main thread *)

(** The sector [start_mandelbrot] gives slot [i]. *)
Definition slot_params (i : Z) : mandelbrot_params :=
  Params (i * (WIDTH ÷ THR_MAX_ACTIVE))
         ((i + 1) * (WIDTH ÷ THR_MAX_ACTIVE) - 1)
         (HEIGHT - 1)
         0
         i.

(** Modelled from the spec: [pthread_cancel] is a call into the thread
    library, which is not part of the program; following section 4.5 of
    the specification ("cancellation is abrupt"), the cancelled thread
    makes no step after the call has returned. *)
Definition pthread_cancel (i : Z) (st : engine) : engine :=
  with_threads (<[Z.to_nat i := None]> (threads st)) st.

(** The body of the two cancel loops (in [start_mandelbrot] and at the
    end of [main]), between lock and unlock of [live_threads_mutex]. *)
Definition cancel_slot (i : Z) (st : engine) : engine :=
  match live_threads st !! Z.to_nat i with
  | Some true =>
      let st := pthread_cancel i st in
      with_live (<[Z.to_nat i := false]> (live_threads st))
                (num_live_threads st - 1) st
  | _ => st
  end.

(** What one atomic section of the main thread does; [ok] tells whether
    [pthread_create] succeeds (it returns 0). *)
Definition exec (a : action) (ok : bool) (st : engine) : engine :=
  match a with
  | A_bounds key => with_bnd (next_bounds key (bnd st)) st
  | A_flush c => with_pixbuf (flush_pixels c (pixbuf st)) st
  | A_cancel i => cancel_slot i st
  | A_mark i =>
      with_live (<[Z.to_nat i := true]> (live_threads st))
                (num_live_threads st + 1) st
  | A_create i =>
      let p := slot_params i in
      let st :=
        printf ("spawning child thread index %d with params (%d, %d, %d, %d)\n"%string,
                [i; p_left p; p_right p; p_top p; p_bottom p]) st in
      if ok then with_threads (<[Z.to_nat i := Some (T_start p)]> (threads st)) st
      else exit 10 (printf ("failed to spawn thread..\n"%string, []) st)
  | A_print l => printf l st
  | A_shutdown i =>
      match live_threads st !! Z.to_nat i with
      | Some true =>
          let st := printf ("cancelling workthread %d\n"%string, [i]) st in
          let st := pthread_cancel i st in
          let st := printf ("done\n"%string, []) st in
          with_live (<[Z.to_nat i := false]> (live_threads st))
                    (num_live_threads st - 1) st
      | _ => st
      end
  | A_return code => exit code st
  end.

(** [start_mandelbrot]: the cancel loop, then the dispatch loop. *)
Definition start_mandelbrot : list action :=
  (A_cancel <$> seqZ 0 THR_MAX_ACTIVE)
  ++ (seqZ 0 THR_MAX_ACTIVE ≫= λ i, [A_mark i; A_create i]).

(** [key_callback key action]. *)
Definition key_callback (key act : Z) : list action :=
  if act =? GLFW_PRESS then
    [A_bounds key; A_flush pix_white] ++ start_mandelbrot
  else [].

(** [main] up to its loop (window and GL set-up left out), and from the
    end of the loop on. *)
Definition main_startup : list action :=
  [A_flush pix_white] ++ start_mandelbrot.

Definition main_cleanup : list action :=
  [A_print ("terminating cleanly\n"%string, [])]
  ++ (A_shutdown <$> seqZ 0 THR_MAX_ACTIVE)
  ++ [A_return 0].

(** The state when [main] starts: the globals are zero except for what
    [main] assigns first. *)
Definition initial_engine : engine :=
  Engine initial_bounds
         (replicate (Z.to_nat (WIDTH * HEIGHT)) (Pixel 0 0 0 0))
         (replicate (Z.to_nat THR_MAX_ACTIVE) None)
         (replicate (Z.to_nat THR_MAX_ACTIVE) false)
         0
         main_startup
         []
         None.

(** The steps of the program: the main thread runs its next atomic
    section; back in its loop, it receives a key event or leaves the loop;
    or a compute thread makes a step.  Nothing happens after the process
    has ended. *)
Inductive step : engine → engine → Prop :=
  | step_main st a rest ok :
      exited st = None → pending st = a :: rest →
      step st (exec a ok (with_pending rest st))
  | step_key st key act :
      exited st = None → pending st = [] →
      step st (with_pending (key_callback key act) st)
  | step_quit st :
      exited st = None → pending st = [] →
      step st (with_pending main_cleanup st)
  | step_thread st i st' :
      exited st = None → thread_step i st = Some st' →
      step st st'.

Definition reachable (st : engine) : Prop := rtc step initial_engine st.

(** The main thread running its atomic sections with no thread step in
    between; [oks] answers the calls of [pthread_create]. *)
Fixpoint run_main (n : nat) (oks : Z → bool) (st : engine) : engine :=
  match n with
  | O => st
  | S n' =>
      match exited st, pending st with
      | None, a :: rest =>
          let ok := match a with A_create i => oks i | _ => true end in
          run_main n' oks (exec a ok (with_pending rest st))
      | _, _ => st
      end
  end.

(** Number of slots marked live. *)
Definition count_live (fl : list bool) : Z :=
  Z.of_nat (length (filter (λ b, b = true) fl)).

(** [get_thr_slot]: the loop [for (i = 0; i < THR_MAX_ACTIVE; ++i)] over
    [live_threads], with [n] rounds left; the first index whose flag is 0
    is returned, and -1 when the loop runs out.  [None] stands for a read
    outside the array. *)
Fixpoint thr_slot_loop (n : nat) (i : Z) (fl : list bool) : option Z :=
  match n with
  | O => Some (-1)
  | S n' =>
      match fl !! Z.to_nat i with
      | None => None
      | Some false => Some i
      | Some true => thr_slot_loop n' (i + 1) fl
      end
  end.

Definition get_thr_slot (fl : list bool) : option Z :=
  thr_slot_loop (Z.to_nat THR_MAX_ACTIVE) 0 fl.

(** ** Invariants of the engine *)

(** What an atomic section of the main thread does to a slot. *)
Inductive slot_kind := K_cancel | K_mark | K_create.

Definition action_slot (a : action) : option (slot_kind * Z) :=
  match a with
  | A_cancel i | A_shutdown i => Some (K_cancel, i)
  | A_mark i => Some (K_mark, i)
  | A_create i => Some (K_create, i)
  | _ => None
  end.

(** The first thing the pending sections do to slot [j]. *)
Fixpoint first_about (j : nat) (acts : list action) : option slot_kind :=
  match acts with
  | [] => None
  | a :: rest =>
      match action_slot a with
      | Some (k, i) => if decide (Z.to_nat i = j) then Some k else first_about j rest
      | None => first_about j rest
      end
  end.

(** The order in which the sections of one slot may follow each other:
    a slot is marked only after a cancel, created right after its mark,
    and cancelled before it is marked again. *)
Definition follows_ok (k : slot_kind) (next : option slot_kind) : bool :=
  match k, next with
  | K_cancel, Some K_create => false
  | K_cancel, _ => true
  | K_mark, Some K_create => true
  | K_mark, _ => false
  | K_create, Some K_cancel => true
  | K_create, None => true
  | K_create, _ => false
  end.

(** The raster is only ever flushed to white. *)
Definition flush_ok (a : action) : bool :=
  match a with A_flush c => bool_decide (c = pix_white) | _ => true end.

Fixpoint chain_ok (acts : list action) : bool :=
  match acts with
  | [] => true
  | a :: rest =>
      match action_slot a with
      | Some (k, i) =>
          (0 <=? i) && (i <? THR_MAX_ACTIVE)
          && follows_ok k (first_about (Z.to_nat i) rest)
      | None => flush_ok a
      end
      && chain_ok rest
  end.

(** What the next section on slot [j] relies on. *)
Definition ready_for (o : option slot_kind) (fl : list bool)
    (ts : list (option thread)) (j : nat) : Prop :=
  match o with
  | Some K_mark => fl !! j = Some false
  | Some K_create => fl !! j = Some true ∧ ts !! j = Some None
  | _ => True
  end.

Definition slot_ready (st : engine) (j : nat) : Prop :=
  ready_for (first_about j (pending st)) (live_threads st) (threads st) j.

Definition thread_params (t : thread) : mandelbrot_params :=
  match t with T_start p | T_scan p _ _ | T_release p => p end.

(** The thread behind [threads[i]] works on the sector of slot [i], and
    its loop variables have not left the sector to the left or below. *)
Definition thread_ok (i : nat) (t : thread) : Prop :=
  thread_params t = slot_params (Z.of_nat i)
  ∧ match t with T_scan p x y => p_left p <= x ∧ p_bottom p <= y | _ => True end.

(** An upper bound on the steps a thread has left: one per pixel of the
    rows it has not finished, one per end of row, and its last steps. *)
Definition thread_rem (t : option thread) : Z :=
  match t with
  | None => 0
  | Some (T_release _) => 1
  | Some (T_scan p x y) =>
      if y >? p_top p then 2
      else (p_top p - y) * (Z.max 0 (p_right p - p_left p + 1) + 1)
           + Z.max 0 (p_right p - x + 1) + 3
  | Some (T_start p) =>
      if p_bottom p >? p_top p then 3
      else (p_top p - p_bottom p) * (Z.max 0 (p_right p - p_left p + 1) + 1)
           + Z.max 0 (p_right p - p_left p + 1) + 4
  end.

Definition pool_rem (ts : list (option thread)) : Z :=
  foldr (λ t acc, thread_rem t + acc) 0 ts.

(** The slot table, the live count and the running threads agree. *)
Definition pool_ok (fl : list bool) (n : Z) (ts : list (option thread)) : Prop :=
  length fl = Z.to_nat THR_MAX_ACTIVE
  ∧ length ts = Z.to_nat THR_MAX_ACTIVE
  ∧ n = count_live fl
  ∧ ∀ i t, ts !! i = Some (Some t) → fl !! i = Some true ∧ thread_ok i t.

(** The columns right of the last sector. *)
Definition margin_white (buf : list pixel) : Prop :=
  ∀ x y : Z,
    THR_MAX_ACTIVE * (WIDTH ÷ THR_MAX_ACTIVE) <= x < WIDTH → 0 <= y < HEIGHT →
    pixel_at buf x y = Some pix_white.

(** The programs the main thread runs. *)
Definition is_program (prog : list action) : Prop :=
  prog = main_startup ∨ prog = main_cleanup
  ∨ ∃ key act, prog = key_callback key act.

Record engine_inv (st : engine) : Prop := {
  inv_pool : pool_ok (live_threads st) (num_live_threads st) (threads st);
  inv_pixbuf_len : length (pixbuf st) = Z.to_nat (WIDTH * HEIGHT);
  inv_program : ∃ done_, is_program (done_ ++ pending st);
  inv_chain : chain_ok (pending st) = true;
  inv_ready : ∀ j, slot_ready st j;
  inv_fits : fits_bounds (bnd st);
  inv_margin : exited st = None →
               A_flush pix_white ∈ pending st ∨ margin_white (pixbuf st);
  inv_exited : exited st ≠ None →
               pending st = [] ∧ ∀ i t, threads st !! i = Some t → t = None
}.



(** A step of some compute thread, the main thread staying in its loop. *)
Definition worker_step (st st' : engine) : Prop :=
  exited st = None ∧ ∃ i, thread_step i st = Some st'.

(** The pixels of a sector; the pixels of it a scan at [(x0, y0)] has
    already gone past, row by row from the bottom; and a pixel that shows
    the colour of its iteration count under the bounds [b]. *)
Definition in_sector (p : mandelbrot_params) (x y : Z) : Prop :=
  p_left p <= x <= p_right p ∧ p_bottom p <= y <= p_top p.

Definition scanned (x0 y0 x y : Z) : Prop := y < y0 ∨ (y = y0 ∧ x < x0).

Definition painted (b : bounds) (buf : list pixel) (x y : Z) : Prop :=
  pixel_at buf x y = Some (get_color (pixel_iterations b x y)).

(** The sector [p] of a slot while a pass runs undisturbed: what its
    thread has gone past is painted, the rest is white. *)
Definition sector_ok (b : bounds) (buf : list pixel) (p : mandelbrot_params)
    (t : option thread) : Prop :=
  match t with
  | Some (T_start q) =>
      q = p ∧ ∀ x y, in_sector p x y → pixel_at buf x y = Some pix_white
  | Some (T_scan q x0 y0) =>
      q = p ∧ p_left p <= x0 ∧ p_bottom p <= y0
      ∧ ∀ x y, in_sector p x y →
               (scanned x0 y0 x y → painted b buf x y)
               ∧ (¬ scanned x0 y0 x y → pixel_at buf x y = Some pix_white)
  | Some (T_release q) => q = p ∧ ∀ x y, in_sector p x y → painted b buf x y
  | None => ∀ x y, in_sector p x y → painted b buf x y
  end.

Definition pass_inv (b : bounds) (st : engine) : Prop :=
  bnd st = b
  ∧ length (threads st) = Z.to_nat THR_MAX_ACTIVE
  ∧ margin_white (pixbuf st)
  ∧ ∀ i t, threads st !! i = Some t →
           sector_ok b (pixbuf st) (slot_params (Z.of_nat i)) t.


(** ** States used as examples *)

(** The state after [main] has started the first computation. *)
Definition started : engine := run_main 13 (λ _, true) initial_engine.



(** The state in which the first [pthread_create] is about to be called. *)
Definition at_first_create : engine := run_main 6 (λ _, true) initial_engine.

(** A one-pixel raster whose pixel is already painted, and a thread about
    to visit it. *)
Definition claimed_engine : engine :=
  Engine initial_bounds [pix_black] [Some (T_scan (Params 0 0 0 0 0) 0 0)]
         [true] 1 [] [] None.

(** The pool after a dispatch in which every [pthread_create] succeeds. *)
Definition fresh_threads : list (option thread) :=
  [Some (T_start (slot_params 0)); Some (T_start (slot_params 1));
   Some (T_start (slot_params 2)); Some (T_start (slot_params 3))].

(** * Theorems *)

(** ** Theorems on the palette *)

Lemma get_color_alpha (ind : Z) : pa (get_color ind) = 0.
Proof.
  unfold get_color.
  repeat match goal with |- context [if ?b then _ else _] => destruct b end;
    reflexivity.
Qed.

(** C4: [get_color] is a total function; on the evaluator's "bounded"
    result (the loop counter left at [MBR_MAX_ITERATIONS]) it returns
    [pix_black], which is {0,0,0,0}; and on no iteration count, so in
    particular on none in [0, M), does it return the [pix_white] sentinel
    {255,255,255,255}. *)
Theorem get_color_black_never_white :
  get_color MBR_MAX_ITERATIONS = pix_black
  ∧ pix_black = Pixel 0 0 0 0
  ∧ pix_white = Pixel 255 255 255 255
  ∧ ∀ n : Z, get_color n ≠ pix_white.
Proof.
  repeat split.
  intros n Hn.
  pose proof (get_color_alpha n) as Ha.
  rewrite Hn in Ha. discriminate Ha.
Qed.

(** Scaling by 255 and dividing by the segment size 85 is multiplication
    by 3, whichever way the division rounds. *)
Lemma quot_scale (k : Z) : (k * 255) ÷ 85 = 3 * k.
Proof. replace (k * 255) with ((3 * k) * 85) by lia. apply Z.quot_mul. lia. Qed.

Lemma div_scale (k : Z) : (k * 255) / 85 = 3 * k.
Proof. replace (k * 255) with ((3 * k) * 85) by lia. apply Z.div_mul. lia. Qed.

(** C5: for every [n] in [0, M) the colour [get_color] returns is the
    band arithmetic of the specification with [S = M/3 = 85] and channels
    stored as bytes: band 0 uses the offset [n - S], band 1 the offset
    [n - 2S], band 2 the offset [n - 3S].  It does not matter whether [/]
    is read as C's truncating division or as floor division. *)
Theorem get_color_band_arithmetic (n : Z) :
  0 <= n < MBR_MAX_ITERATIONS →
  get_color n = band_palette Z.quot n ∧ get_color n = band_palette Z.div n.
Proof.
  intros Hn. unfold MBR_MAX_ITERATIONS in Hn.
  unfold get_color, band_palette, to_uint8, MBR_MAX_ITERATIONS.
  change (256 ÷ 3) with 85. change (256 / 3) with 85.
  rewrite !quot_scale, !div_scale.
  destruct (n =? 256) eqn:E1; [lia|].
  destruct (n >=? 85 * 2) eqn:E2; destruct (n >=? 85) eqn:E3;
    repeat case_decide; try lia; split; reflexivity.
Qed.

Lemma get_color_band_arithmetic_witness :
  0 <= 0 < MBR_MAX_ITERATIONS
  ∧ get_color 0 = Pixel 254 1 0 0
  ∧ band_palette Z.quot 0 = Pixel 254 1 0 0.
Proof.
  assert (H : 0 <= 0 < MBR_MAX_ITERATIONS) by (unfold MBR_MAX_ITERATIONS; lia).
  split; [exact H|].
  destruct (get_color_band_arithmetic 0 H) as [Hq _].
  split; [reflexivity|]. rewrite <- Hq. reflexivity.
Defined.


(** ** Theorems on the escape-time loop *)

Lemma cur_init_not_diverged : mbr_diverged cur_init = false.
Proof. reflexivity. Qed.

Section escape_loop.

(** The constant [inp] of the pixel is fixed while its loop runs. *)
Variable inp : img.

Lemma mbr_loop_0 (i : Z) (cur : img) : mbr_loop 0 i inp cur = (i, 0).
Proof. reflexivity. Qed.

Lemma mbr_loop_S (n : nat) (i : Z) (cur : img) :
  mbr_loop (S n) i inp cur =
  if mbr_diverged cur then (i, 1)
  else mbr_loop n (i + 1) inp (mbr_update inp cur).
Proof. reflexivity. Qed.

Lemma orbit_S (k : nat) :
  orbit inp (S k) = mbr_update inp (orbit inp k).
Proof. reflexivity. Qed.

Lemma mbr_loop_range (n : nat) (i : Z) (cur : img) :
  i <= fst (mbr_loop n i inp cur) <= i + Z.of_nat n.
Proof.
  revert i cur. induction n as [|n IH]; intros i cur.
  - rewrite mbr_loop_0. cbn [fst]. lia.
  - rewrite mbr_loop_S. destruct (mbr_diverged cur); cbn [fst]; [lia|].
    specialize (IH (i + 1) (mbr_update inp cur)). lia.
Qed.


(** The loop index at exit is the first [k] whose [orbit] value passes
    the test. *)
Lemma mbr_loop_first (n : nat) (k0 : nat) (i0 : Z) (cur : img) :
  i0 = Z.of_nat k0 → cur = orbit inp k0 →
  (∀ k : nat, (k0 <= k)%nat → Z.of_nat k < fst (mbr_loop n i0 inp cur) →
              mbr_diverged (orbit inp k) = false)
  ∧ (fst (mbr_loop n i0 inp cur) < i0 + Z.of_nat n →
     mbr_diverged (orbit inp (Z.to_nat (fst (mbr_loop n i0 inp cur)))) = true).
Proof.
  revert k0 i0 cur. induction n as [|n IH]; intros k0 i0 cur -> ->.
  - rewrite mbr_loop_0. cbn [fst]. split; intros; lia.
  - rewrite mbr_loop_S.
    destruct (mbr_diverged (orbit inp k0)) eqn:Hd; cbn [fst].
    + split; [intros; lia|]. intros _. by rewrite Nat2Z.id.
    + destruct (IH (S k0) (Z.of_nat k0 + 1) (mbr_update inp (orbit inp k0)))
        as [IH1 IH2]; [lia | apply orbit_S |].
      split.
      * intros k Hk Hlt. destruct (decide (k = k0)) as [->|Hne]; [done|].
        apply IH1; [lia | done].
      * intros Hlt. apply IH2. lia.
Qed.

Lemma spec_loop_eq (n : nat) (i : Z) (z : img) :
  spec_loop (S n) i inp z =
  if mbr_diverged (mbr_update inp z) then Some i
  else spec_loop n (i + 1) inp (mbr_update inp z).
Proof. reflexivity. Qed.

Lemma spec_loop_range (n : nat) (i : Z) (z : img) (m : Z) :
  spec_loop n i inp z = Some m → i <= m < i + Z.of_nat n.
Proof.
  revert i z. induction n as [|n IH]; intros i z; [done|].
  rewrite spec_loop_eq.
  destruct (mbr_diverged (mbr_update inp z)).
  - intros [= <-]. lia.
  - intros H. apply IH in H. lia.
Qed.

(** One more round of the specification's loop only adds a last test. *)
Lemma spec_loop_S (n : nat) (i : Z) (z : img) :
  spec_loop (S n) i inp z =
  match spec_loop n i inp z with
  | Some m => Some m
  | None =>
      if mbr_diverged (Nat.iter (S n) (mbr_update inp) z)
      then Some (i + Z.of_nat n) else None
  end.
Proof.
  revert i z. induction n as [|n IH]; intros i z.
  - rewrite spec_loop_eq. change (spec_loop 0 _ inp _) with (@None Z).
    change (Nat.iter 1 (mbr_update inp) z) with (mbr_update inp z).
    destruct (mbr_diverged _); f_equal; lia.
  - rewrite (spec_loop_eq (S n) i), (spec_loop_eq n i).
    destruct (mbr_diverged (mbr_update inp z)); [done|].
    rewrite IH.
    replace (Nat.iter (S n) (mbr_update inp) (mbr_update inp z))
      with (Nat.iter (S (S n)) (mbr_update inp) z)
      by (rewrite (Nat.iter_succ_r (S n)); reflexivity).
    replace (i + 1 + Z.of_nat n) with (i + Z.of_nat (S n)) by lia.
    reflexivity.
Qed.

(** The program tests before the update, the specification after it: a
    program loop of [n + 1] rounds that starts on a value below the
    threshold sees what [n] rounds of the specification's loop see, and
    counts one more. *)
Lemma mbr_loop_vs_spec_loop (n : nat) (i : Z) (cur : img) :
  mbr_diverged cur = false →
  fst (mbr_loop (S n) i inp cur) =
  match spec_loop n i inp cur with
  | Some m => m + 1
  | None => i + 1 + Z.of_nat n
  end.
Proof.
  revert i cur. induction n as [|n IH]; intros i cur Hc.
  - rewrite mbr_loop_S, Hc, mbr_loop_0. cbn [fst spec_loop]. lia.
  - rewrite mbr_loop_S, Hc, spec_loop_eq.
    destruct (mbr_diverged (mbr_update inp cur)) eqn:Hd.
    + rewrite mbr_loop_S, Hd. reflexivity.
    + rewrite (IH _ _ Hd). destruct (spec_loop _ _ _ _); lia.
Qed.

Lemma max_iterations_nat : Z.to_nat MBR_MAX_ITERATIONS = S 255.
Proof. reflexivity. Qed.

Lemma mbr_iterate_vs_spec :
  fst (mbr_iterate inp) =
  match spec_iterate inp with
  | Some n => if n <? MBR_MAX_ITERATIONS - 1 then n + 1 else MBR_MAX_ITERATIONS
  | None => MBR_MAX_ITERATIONS
  end.
Proof.
  unfold mbr_iterate, spec_iterate. rewrite max_iterations_nat.
  rewrite (mbr_loop_vs_spec_loop 255 0 cur_init cur_init_not_diverged).
  rewrite (spec_loop_S 255 0 cur_init).
  destruct (spec_loop 255 0 inp cur_init) as [m|] eqn:Hs.
  - apply spec_loop_range in Hs.
    destruct (m <? MBR_MAX_ITERATIONS - 1) eqn:Hm; [done|].
    unfold MBR_MAX_ITERATIONS in Hm. lia.
  - destruct (mbr_diverged _); reflexivity.
Qed.

Lemma mbr_iterate_nonzero : fst (mbr_iterate inp) ≠ 0.
Proof.
  assert (H : ∀ m, spec_iterate inp = Some m → 0 <= m).
  { unfold spec_iterate. intros m Hs.
    exact (proj1 (spec_loop_range _ _ _ _ Hs)). }
  rewrite mbr_iterate_vs_spec.
  destruct (spec_iterate inp) as [m|]; [|discriminate].
  specialize (H m eq_refl).
  destruct (m <? MBR_MAX_ITERATIONS - 1); [lia | discriminate].
Qed.

Lemma orbit_0 : cur_init = orbit inp 0.
Proof. reflexivity. Qed.

End escape_loop.

Lemma max_iterations_Z : Z.of_nat (Z.to_nat MBR_MAX_ITERATIONS) = MBR_MAX_ITERATIONS.
Proof. reflexivity. Qed.




(** ** Lemmas on the arithmetic *)

Lemma two_neq_0 : ¬ (2 == 0)%Q.
Proof. discriminate. Qed.

(** Moving [k] zero bits between mantissa and exponent keeps the value. *)
Lemma to_Q_shift (m e k : Z) :
  0 <= k → (to_Q (Dy (m * 2 ^ k) (e - k)) == to_Q (Dy m e))%Q.
Proof.
  intros Hk. unfold to_Q. cbn [mant expo].
  rewrite inject_Z_mult, (Zpower_Qpower 2 k Hk).
  replace e with ((e - k) + k) at 2 by lia.
  rewrite (Qpower_plus 2 (e - k) k two_neq_0).
  change (inject_Z 2) with 2%Q. ring.
Qed.

Lemma to_Q_plus (a b e : Z) :
  (to_Q (Dy (a + b) e) == to_Q (Dy a e) + to_Q (Dy b e))%Q.
Proof. unfold to_Q. cbn [mant expo]. rewrite inject_Z_plus. ring. Qed.

Lemma to_Q_ex_add (x y : dyadic) :
  (to_Q (ex_add x y) == to_Q x + to_Q y)%Q.
Proof.
  unfold ex_add. rewrite to_Q_plus.
  set (e := Z.min (expo x) (expo y)).
  assert (Hx : 0 <= expo x - e) by lia.
  assert (Hy : 0 <= expo y - e) by lia.
  pose proof (to_Q_shift (mant x) (expo x) _ Hx) as Ex.
  pose proof (to_Q_shift (mant y) (expo y) _ Hy) as Ey.
  replace (expo x - (expo x - e)) with e in Ex by lia.
  replace (expo y - (expo y - e)) with e in Ey by lia.
  rewrite Ex, Ey. destruct x, y; reflexivity.
Qed.

Lemma to_Q_ex_neg (x : dyadic) : (to_Q (ex_neg x) == - to_Q x)%Q.
Proof. unfold to_Q, ex_neg. cbn [mant expo]. rewrite inject_Z_opp. ring. Qed.

Lemma to_Q_ex_sub (x y : dyadic) :
  (to_Q (ex_sub x y) == to_Q x - to_Q y)%Q.
Proof. unfold ex_sub. rewrite to_Q_ex_add, to_Q_ex_neg. ring. Qed.

Lemma to_Q_half (m e : Z) : (to_Q (Dy m (e - 1)) == to_Q (Dy m e) / 2)%Q.
Proof.
  unfold to_Q. cbn [mant expo].
  replace e with ((e - 1) + 1) at 2 by lia.
  rewrite (Qpower_plus 2 (e - 1) 1 two_neq_0).
  change (2 ^ 1)%Q with 2%Q. field.
Qed.

(** [bitlen m <= n] says that [m] is an [n]-bit mantissa. *)
Lemma bitlen_le (m n : Z) :
  0 < n → bitlen m <= n ↔ - 2 ^ n <= m < 2 ^ n.
Proof.
  intros Hn. unfold bitlen.
  assert (Hpow : 0 < 2 ^ n) by (apply Z.pow_pos_nonneg; lia).
  destruct (m <? 0) eqn:Hm.
  - apply Z.ltb_lt in Hm.
    destruct (decide (- m - 1 = 0)) as [E|E].
    + rewrite E. change (Z.log2 0) with 0. split; intros; lia.
    + pose proof (Z.log2_lt_pow2 (- m - 1) n ltac:(lia)) as H. split; intros; lia.
  - apply Z.ltb_ge in Hm.
    destruct (decide (m = 0)) as [->|E].
    + change (Z.log2 0) with 0. split; intros; lia.
    + pose proof (Z.log2_lt_pow2 m n ltac:(lia)) as H. split; intros; lia.
Qed.

Lemma PBITS_pos : 0 < PBITS.
Proof. reflexivity. Qed.

(** A value that fits is not changed by the rounding. *)
Lemma rndd_fits_id (x : dyadic) : fits x → rndd PBITS x = x.
Proof.
  intros Hx. unfold rndd.
  apply (bitlen_le _ _ PBITS_pos) in Hx.
  destruct (bitlen (mant x) - PBITS <=? 0) eqn:E; [done|].
  apply Z.leb_gt in E. lia.
Qed.

(** The rounding produces a value that fits. *)
Lemma rndd_fits (x : dyadic) : fits (rndd PBITS x).
Proof.
  unfold rndd, fits.
  destruct (bitlen (mant x) - PBITS <=? 0) eqn:E.
  - apply Z.leb_le in E. apply (bitlen_le _ _ PBITS_pos). lia.
  - apply Z.leb_gt in E. cbn [mant].
    set (k := bitlen (mant x) - PBITS) in *.
    assert (Hb : bitlen (mant x) <= PBITS + k) by lia.
    apply bitlen_le in Hb; [|pose proof PBITS_pos; lia].
    rewrite Z.pow_add_r in Hb by (pose proof PBITS_pos; lia).
    rewrite Z.shiftr_div_pow2 by lia.
    assert (Hk : 0 < 2 ^ k) by (apply Z.pow_pos_nonneg; lia).
    split.
    + apply Z.div_le_lower_bound; lia.
    + apply Z.div_lt_upper_bound; lia.
Qed.

(** An exact result that is [lossless] is delivered unchanged in value. *)
Lemma rndd_lossless (x : dyadic) :
  lossless x = true → (to_Q (rndd PBITS x) == to_Q x)%Q.
Proof.
  unfold lossless, rndd.
  destruct (bitlen (mant x) - PBITS <=? 0) eqn:E; [reflexivity|].
  apply Z.leb_gt in E. cbn [orb]. intros Hm. apply Z.eqb_eq in Hm.
  set (k := bitlen (mant x) - PBITS) in *.
  rewrite Z.shiftr_div_pow2 by lia.
  assert (Hk : 0 < 2 ^ k) by (apply Z.pow_pos_nonneg; lia).
  pose proof (Z.div_mod (mant x) (2 ^ k) ltac:(lia)) as Hd.
  rewrite Hm, Z.add_0_r in Hd.
  pose proof (to_Q_shift (mant x / 2 ^ k) (expo x + k) k ltac:(lia)) as Hs.
  replace (expo x + k - k) with (expo x) in Hs by lia.
  replace (mant x / 2 ^ k * 2 ^ k) with (mant x) in Hs by lia.
  rewrite <- Hs. destruct x; reflexivity.
Qed.

(** Halving with [mpfr_div_d (_, _, 2.0, MPFR_RNDD)] is exact. *)
Lemma to_Q_div_2 (x : dyadic) :
  fits x → (to_Q (mpfr_div_d x d_2_0) == to_Q x / 2)%Q.
Proof.
  intros Hx. unfold mpfr_div_d, d_2_0. cbn [mant expo].
  rewrite Z.div_1_r.
  set (s := Z.max 0 _).
  assert (Hs : 0 <= s) by lia.
  rewrite rndd_lossless.
  - replace (expo x - 1 - s) with ((expo x - 1) - s) by lia.
    rewrite to_Q_shift by done. rewrite to_Q_half. destruct x; reflexivity.
  - unfold lossless. cbn [mant].
    destruct (bitlen (mant x * 2 ^ s) - PBITS <=? 0) eqn:E; [done|].
    apply Z.leb_gt in E. cbn [orb]. apply Z.eqb_eq.
    set (k := bitlen (mant x * 2 ^ s) - PBITS) in *.
    assert (Hks : k <= s).
    { assert (bitlen (mant x * 2 ^ s) <= PBITS + s); [|lia].
      apply bitlen_le; [pose proof PBITS_pos; lia|].
      rewrite Z.pow_add_r by (pose proof PBITS_pos; lia).
      unfold fits in Hx.
      assert (0 < 2 ^ s) by (apply Z.pow_pos_nonneg; lia). nia. }
    replace s with ((s - k) + k) by lia.
    rewrite Z.pow_add_r by lia. rewrite Z.mul_assoc.
    apply Z.mod_mul. apply Z.pow_nonzero; lia.
Qed.

Lemma mpfr_div_d_fits (x d : dyadic) : fits (mpfr_div_d x d).
Proof. apply rndd_fits. Qed.

(** ** Theorems on the viewport update *)

(** The value an MPFR subtraction or addition delivers when it does not
    round. *)
Lemma to_Q_mpfr_sub (x y : dyadic) :
  lossless (ex_sub x y) = true → (to_Q (mpfr_sub x y) == to_Q x - to_Q y)%Q.
Proof. intros H. unfold mpfr_sub. rewrite (rndd_lossless _ H). apply to_Q_ex_sub. Qed.

Lemma to_Q_mpfr_add (x y : dyadic) :
  lossless (ex_add x y) = true → (to_Q (mpfr_add x y) == to_Q x + to_Q y)%Q.
Proof. intros H. unfold mpfr_add. rewrite (rndd_lossless _ H). apply to_Q_ex_add. Qed.

Lemma mpfr_sub_fits (x y : dyadic) : fits (mpfr_sub x y).
Proof. apply rndd_fits. Qed.

Lemma mpfr_add_fits (x y : dyadic) : fits (mpfr_add x y).
Proof. apply rndd_fits. Qed.

Lemma mpfr_set_fits_id (x : dyadic) : fits x → mpfr_set x = x.
Proof. apply rndd_fits_id. Qed.

Create HintDb fits.

#[local] Hint Resolve mpfr_sub_fits mpfr_add_fits mpfr_div_d_fits rndd_fits : fits.

Ltac commit_bounds :=
  unfold next_bounds; cbv zeta;
  repeat match goal with
    | |- context [?k =? ?k'] =>
        let r := eval vm_compute in (k =? k') in change (k =? k') with r
    end;
  cbv iota beta;
  rewrite ?mpfr_set_fits_id by (rewrite ?mpfr_set_fits_id by assumption; auto with fits);
  reflexivity.

Lemma next_bounds_left (b : bounds) :
  fits_bounds b →
  next_bounds GLFW_KEY_LEFT b =
  Bounds (mpfr_sub (bound_left b) (hdiff_of b)) (mpfr_sub (bound_right b) (hdiff_of b))
         (bound_top b) (bound_bottom b).
Proof. intros (Hl & Hr & Ht & Hb). unfold hdiff_of. commit_bounds. Qed.

Lemma next_bounds_right (b : bounds) :
  fits_bounds b →
  next_bounds GLFW_KEY_RIGHT b =
  Bounds (mpfr_add (bound_left b) (hdiff_of b)) (mpfr_add (bound_right b) (hdiff_of b))
         (bound_top b) (bound_bottom b).
Proof. intros (Hl & Hr & Ht & Hb). unfold hdiff_of. commit_bounds. Qed.

Lemma next_bounds_up (b : bounds) :
  fits_bounds b →
  next_bounds GLFW_KEY_UP b =
  Bounds (bound_left b) (bound_right b)
         (mpfr_add (bound_top b) (vdiff_of b)) (mpfr_add (bound_bottom b) (vdiff_of b)).
Proof. intros (Hl & Hr & Ht & Hb). unfold vdiff_of. commit_bounds. Qed.

Lemma next_bounds_down (b : bounds) :
  fits_bounds b →
  next_bounds GLFW_KEY_DOWN b =
  Bounds (bound_left b) (bound_right b)
         (mpfr_sub (bound_top b) (vdiff_of b)) (mpfr_sub (bound_bottom b) (vdiff_of b)).
Proof. intros (Hl & Hr & Ht & Hb). unfold vdiff_of. commit_bounds. Qed.

Lemma next_bounds_space (b : bounds) :
  fits_bounds b →
  next_bounds GLFW_KEY_SPACE b =
  Bounds (mpfr_add (bound_left b) (mpfr_div_d (hdiff_of b) d_2_0))
         (mpfr_sub (bound_right b) (mpfr_div_d (hdiff_of b) d_2_0))
         (mpfr_sub (bound_top b) (mpfr_div_d (vdiff_of b) d_2_0))
         (mpfr_add (bound_bottom b) (mpfr_div_d (vdiff_of b) d_2_0)).
Proof. intros (Hl & Hr & Ht & Hb). unfold hdiff_of, vdiff_of. commit_bounds. Qed.

(** A key that is none of the five leaves the bounds as they are. *)
Lemma next_bounds_other (b : bounds) (key : Z) :
  fits_bounds b →
  key ≠ GLFW_KEY_LEFT → key ≠ GLFW_KEY_RIGHT → key ≠ GLFW_KEY_UP →
  key ≠ GLFW_KEY_DOWN → key ≠ GLFW_KEY_SPACE →
  next_bounds key b = b.
Proof.
  intros (Hl & Hr & Ht & Hb) H1 H2 H3 H4 H5.
  unfold next_bounds. cbv zeta.
  apply Z.eqb_neq in H1, H2, H3, H4, H5. rewrite H1, H2, H3, H4, H5.
  rewrite !mpfr_set_fits_id by (rewrite ?mpfr_set_fits_id by assumption; assumption).
  destruct b; reflexivity.
Qed.

Lemma next_bounds_fits (b : bounds) (key : Z) : fits_bounds (next_bounds key b).
Proof.
  unfold next_bounds. cbv zeta.
  repeat match goal with |- context [if ?c then _ else _] => destruct c end;
    repeat split; apply rndd_fits.
Qed.

Lemma to_Q_hdiff (b : bounds) :
  lossless (ex_sub (bound_right b) (bound_left b)) = true →
  (to_Q (hdiff_of b) == width_Q b / 2)%Q.
Proof.
  intros H. unfold hdiff_of, width_Q.
  rewrite to_Q_div_2 by auto with fits. rewrite (to_Q_mpfr_sub _ _ H). reflexivity.
Qed.

Lemma to_Q_vdiff (b : bounds) :
  lossless (ex_sub (bound_top b) (bound_bottom b)) = true →
  (to_Q (vdiff_of b) == height_Q b / 2)%Q.
Proof.
  intros H. unfold vdiff_of, height_Q.
  rewrite to_Q_div_2 by auto with fits. rewrite (to_Q_mpfr_sub _ _ H). reflexivity.
Qed.

Ltac split_exact H :=
  unfold key_exact in H; cbv zeta in H;
  repeat match type of H with
    | context [?k =? ?k'] =>
        let r := eval vm_compute in (k =? k') in change (k =? k') with r in H
    end;
  cbv iota beta in H;
  repeat match goal with
    | H' : _ && _ = true |- _ => apply andb_prop in H'; destruct H'
    end.

(** C6, as the arithmetic of the program allows it: the handler works at
    128 bits and rounds every result toward minus infinity.  For a
    viewport of 128-bit bounds on which none of the subtractions and
    additions of the pressed key rounds, a pan shifts the two bounds of
    its axis by half the width (left, right) or half the height (up,
    down), leaves the other two bounds alone and preserves width and
    height exactly; zoom-in moves every bound inward by a quarter of the
    width or height, so the new width and height are exactly half the old
    ones and the centre stays where it was. *)
Theorem next_bounds_exact_pan_zoom (b : bounds) (key : Z) :
  fits_bounds b → key_exact key b = true →
  let b' := next_bounds key b in
  let l := to_Q (bound_left b) in let r := to_Q (bound_right b) in
  let t := to_Q (bound_top b) in let m := to_Q (bound_bottom b) in
  let l' := to_Q (bound_left b') in let r' := to_Q (bound_right b') in
  let t' := to_Q (bound_top b') in let m' := to_Q (bound_bottom b') in
  let w := width_Q b in let h := height_Q b in
  (key = GLFW_KEY_LEFT →
     l' == l - w / 2 ∧ r' == r - w / 2 ∧ t' == t ∧ m' == m
     ∧ width_Q b' == w ∧ height_Q b' == h)%Q
  ∧ (key = GLFW_KEY_RIGHT →
     l' == l + w / 2 ∧ r' == r + w / 2 ∧ t' == t ∧ m' == m
     ∧ width_Q b' == w ∧ height_Q b' == h)%Q
  ∧ (key = GLFW_KEY_UP →
     l' == l ∧ r' == r ∧ t' == t + h / 2 ∧ m' == m + h / 2
     ∧ width_Q b' == w ∧ height_Q b' == h)%Q
  ∧ (key = GLFW_KEY_DOWN →
     l' == l ∧ r' == r ∧ t' == t - h / 2 ∧ m' == m - h / 2
     ∧ width_Q b' == w ∧ height_Q b' == h)%Q
  ∧ (key = GLFW_KEY_SPACE →
     l' == l + w / 4 ∧ r' == r - w / 4 ∧ t' == t - h / 4 ∧ m' == m + h / 4
     ∧ width_Q b' == w / 2 ∧ height_Q b' == h / 2
     ∧ l' + r' == l + r ∧ t' + m' == t + m)%Q.
Proof.
  intros Hfit Hex. cbv zeta.
  split; [|split; [|split; [|split]]]; intros ->; split_exact Hex.
  all: pose proof (to_Q_hdiff b ltac:(assumption)) as Hh.
  all: pose proof (to_Q_vdiff b ltac:(assumption)) as Hv.
  all: unfold width_Q, height_Q in *.
  - rewrite next_bounds_left by done. cbn [bound_left bound_right bound_top bound_bottom].
    rewrite !to_Q_mpfr_sub by assumption. rewrite Hh. repeat split; lra.
  - rewrite next_bounds_right by done. cbn [bound_left bound_right bound_top bound_bottom].
    rewrite !to_Q_mpfr_add by assumption. rewrite Hh. repeat split; lra.
  - rewrite next_bounds_up by done. cbn [bound_left bound_right bound_top bound_bottom].
    rewrite !to_Q_mpfr_add by assumption. rewrite Hv. repeat split; lra.
  - rewrite next_bounds_down by done. cbn [bound_left bound_right bound_top bound_bottom].
    rewrite !to_Q_mpfr_sub by assumption. rewrite Hv. repeat split; lra.
  - rewrite next_bounds_space by done. cbn [bound_left bound_right bound_top bound_bottom].
    rewrite !to_Q_mpfr_sub, !to_Q_mpfr_add by assumption.
    rewrite !to_Q_div_2 by (unfold hdiff_of, vdiff_of; auto with fits).
    rewrite Hh, Hv. repeat split; field.
Qed.

Lemma initial_bounds_fits : fits_bounds initial_bounds.
Proof. repeat split; vm_compute; congruence. Qed.

Lemma next_bounds_exact_pan_zoom_witness :
  let b' := next_bounds GLFW_KEY_SPACE initial_bounds in
  (width_Q b' == width_Q initial_bounds / 2)%Q
  ∧ (height_Q b' == height_Q initial_bounds / 2)%Q.
Proof.
  intros b'.
  assert (Hex : key_exact GLFW_KEY_SPACE initial_bounds = true) by (vm_compute; reflexivity).
  destruct (next_bounds_exact_pan_zoom initial_bounds GLFW_KEY_SPACE
              initial_bounds_fits Hex) as (_ & _ & _ & _ & Hz).
  destruct (Hz eq_refl) as (_ & _ & _ & _ & Hw & Hh & _).
  split; [exact Hw | exact Hh].
Defined.

(** C6 as stated fails at the limit of the precision: on [narrow_bounds]
    (left < right, bottom < top, all four bounds 128-bit values) a pan to
    the left halves the width instead of preserving it, because the new
    right bound is rounded down. *)
Lemma pan_left_changes_width :
  fits_bounds narrow_bounds
  ∧ (to_Q (bound_left narrow_bounds) < to_Q (bound_right narrow_bounds))%Q
  ∧ (to_Q (bound_bottom narrow_bounds) < to_Q (bound_top narrow_bounds))%Q
  ∧ ¬ (width_Q (next_bounds GLFW_KEY_LEFT narrow_bounds) == width_Q narrow_bounds)%Q
  ∧ (width_Q (next_bounds GLFW_KEY_LEFT narrow_bounds) == width_Q narrow_bounds / 2)%Q.
Proof.
  split; [repeat split; vm_compute; congruence|].
  split; [vm_compute; reflexivity|].
  split; [vm_compute; reflexivity|].
  split; [vm_compute; discriminate | vm_compute; reflexivity].
Qed.

(** ** Lemmas on the slot table and the raster *)

Lemma count_live_cons (b : bool) (fl : list bool) :
  count_live (b :: fl) = (if b then 1 else 0) + count_live fl.
Proof.
  unfold count_live. rewrite filter_cons.
  destruct b; case_decide; try congruence; cbn [length]; lia.
Qed.

(** Writing one flag moves the count by the difference of old and new. *)
Lemma count_live_insert (fl : list bool) (i : nat) (b b' : bool) :
  fl !! i = Some b →
  count_live (<[i := b']> fl) =
  count_live fl - (if b then 1 else 0) + (if b' then 1 else 0).
Proof.
  revert i. induction fl as [|c fl IH]; intros i Hi; [done|].
  destruct i as [|i].
  - injection Hi as ->. change (<[0%nat := b']> (b :: fl)) with (b' :: fl).
    rewrite !count_live_cons. lia.
  - change (<[S i := b']> (c :: fl)) with (c :: <[i := b']> fl).
    change ((c :: fl) !! S i) with (fl !! i) in Hi.
    rewrite !count_live_cons, (IH i Hi). lia.
Qed.

Lemma count_live_replicate_false (n : nat) : count_live (replicate n false) = 0.
Proof.
  induction n as [|n IH]; [reflexivity|].
  cbn [replicate]. rewrite count_live_cons, IH. reflexivity.
Qed.

Lemma length_fill (c : pixel) (buf : list pixel) (n : nat) :
  length (fill c buf n) = length buf.
Proof.
  revert n. induction buf as [|p buf IH]; intros n; [done|].
  destruct n as [|n]; [done|]. cbn [fill length]. by rewrite IH.
Qed.

Lemma lookup_fill (c : pixel) (buf : list pixel) (n i : nat) :
  fill c buf n !! i =
  if decide (i < n ∧ i < length buf)%nat then Some c else buf !! i.
Proof.
  revert n i. induction buf as [|p buf IH]; intros n i.
  - cbn [fill length]. case_decide; [lia | done].
  - destruct n as [|n]; cbn [fill].
    + case_decide; [lia | done].
    + destruct i as [|i].
      * cbn [length]. case_decide; [done | lia].
      * change ((c :: fill c buf n) !! S i) with (fill c buf n !! i).
        change ((p :: buf) !! S i) with (buf !! i).
        rewrite IH. cbn [length]. repeat case_decide; try lia; done.
Qed.

Lemma length_flush_pixels (c : pixel) (buf : list pixel) :
  length (flush_pixels c buf) = length buf.
Proof. apply length_fill. Qed.

(** [flush_pixels] sets every element of the array. *)
Lemma lookup_flush_pixels (c : pixel) (buf : list pixel) (i : nat) :
  length buf = Z.to_nat (WIDTH * HEIGHT) →
  (i < Z.to_nat (WIDTH * HEIGHT))%nat →
  flush_pixels c buf !! i = Some c.
Proof.
  intros Hlen Hi. unfold flush_pixels. rewrite lookup_fill.
  case_decide; [done | lia].
Qed.

Lemma flush_pixels_replicate (c : pixel) (buf : list pixel) :
  length buf = Z.to_nat (WIDTH * HEIGHT) →
  flush_pixels c buf = replicate (Z.to_nat (WIDTH * HEIGHT)) c.
Proof.
  intros Hlen. apply list_eq. intros i.
  destruct (decide (i < Z.to_nat (WIDTH * HEIGHT))%nat) as [Hi|Hi].
  - rewrite lookup_flush_pixels by done. symmetry. by apply lookup_replicate_2.
  - rewrite (proj2 (lookup_ge_None _ _)) by (rewrite length_flush_pixels; lia).
    symmetry. apply lookup_ge_None. rewrite length_replicate. lia.
Qed.

(** The index of a pixel of the raster is inside the array. *)
Lemma pixel_index_range (x y : Z) :
  0 <= x < WIDTH → 0 <= y < HEIGHT → 0 <= pixel_index x y < WIDTH * HEIGHT.
Proof. unfold pixel_index, WIDTH, HEIGHT. lia. Qed.

Lemma pixel_at_flush (c : pixel) (buf : list pixel) (x y : Z) :
  length buf = Z.to_nat (WIDTH * HEIGHT) →
  0 <= x < WIDTH → 0 <= y < HEIGHT →
  pixel_at (flush_pixels c buf) x y = Some c.
Proof.
  intros Hlen Hx Hy. unfold pixel_at.
  pose proof (pixel_index_range x y Hx Hy) as Hi.
  destruct (pixel_index x y <? 0) eqn:E; [lia|].
  apply lookup_flush_pixels; [done | lia].
Qed.

(** A write at a pixel leaves the pixels of other columns alone. *)
Lemma pixel_at_insert_other (buf : list pixel) (c : pixel) (x y x' y' : Z) :
  0 <= x < WIDTH → 0 <= x' < WIDTH → x ≠ x' → 0 <= pixel_index x y →
  pixel_at (<[Z.to_nat (pixel_index x y) := c]> buf) x' y' = pixel_at buf x' y'.
Proof.
  intros Hx Hx' Hne Hi. unfold pixel_at.
  destruct (pixel_index x' y' <? 0) eqn:E; [done|].
  apply Z.ltb_ge in E.
  apply list_lookup_insert_ne.
  unfold pixel_index, WIDTH in *. intros Heq.
  assert (y * 1366 + x = y' * 1366 + x') by lia. lia.
Qed.

(** ** The invariant of the engine *)

Arguments flush_pixels : simpl never.
Arguments next_bounds : simpl never.
Arguments pixel_iterations : simpl never.
Arguments get_color : simpl never.
Arguments slot_params : simpl never.

(** Writing the flag and the thread of one slot. *)
Lemma pool_ok_write (fl : list bool) (n : Z) (ts : list (option thread))
    (j : nat) (b b' : bool) (t' : option thread) :
  pool_ok fl n ts → fl !! j = Some b →
  (∀ t, t' = Some t → b' = true ∧ thread_ok j t) →
  pool_ok (<[j := b']> fl)
          (n - (if b then 1 else 0) + (if b' then 1 else 0))
          (<[j := t']> ts).
Proof.
  intros (Hfl & Hts & Hn & Hth) Hj Ht'.
  split; [by rewrite length_insert|]. split; [by rewrite length_insert|].
  split; [rewrite (count_live_insert fl j b b' Hj); lia|].
  intros i t Hi. apply list_lookup_insert_Some in Hi as [(-> & -> & Hlen)|[Hne Hi]].
  - destruct (Ht' t eq_refl) as [-> Hok]. split; [|done].
    apply list_lookup_insert_eq. by eapply lookup_lt_Some.
  - rewrite list_lookup_insert_ne by done. by apply Hth.
Qed.

(** A slot that is not marked has no thread. *)
Lemma pool_ok_free (fl : list bool) (n : Z) (ts : list (option thread)) (j : nat) :
  pool_ok fl n ts → fl !! j = Some false → ts !! j = Some None.
Proof.
  intros (Hfl & Hts & _ & Hth) Hj.
  assert (Hlt : (j < length ts)%nat).
  { rewrite Hts, <- Hfl. by eapply lookup_lt_Some. }
  destruct (lookup_lt_is_Some_2 _ _ Hlt) as [[t|] Ht]; [|done].
  destruct (Hth j t Ht) as [Hf _]. congruence.
Qed.

Lemma first_about_skip (a : action) (rest : list action) (j : nat) :
  (∀ k i, action_slot a = Some (k, i) → Z.to_nat i ≠ j) →
  first_about j (a :: rest) = first_about j rest.
Proof.
  intros H. cbn [first_about].
  destruct (action_slot a) as [[k i]|]; [|done].
  case_decide; [|done]. by destruct (H k i eq_refl).
Qed.

Lemma first_about_here (a : action) (rest : list action) (k : slot_kind) (i : Z) :
  action_slot a = Some (k, i) → first_about (Z.to_nat i) (a :: rest) = Some k.
Proof. intros H. cbn [first_about]. rewrite H. by case_decide. Qed.

Lemma chain_ok_cons (a : action) (rest : list action) :
  chain_ok (a :: rest) = true →
  chain_ok rest = true
  ∧ ∀ k i, action_slot a = Some (k, i) →
           0 <= i < THR_MAX_ACTIVE
           ∧ follows_ok k (first_about (Z.to_nat i) rest) = true.
Proof.
  cbn [chain_ok]. intros [H1 H2]%andb_prop. split; [done|].
  intros k i Ha. rewrite Ha in H1.
  apply andb_prop in H1 as [[H3 H4]%andb_prop H5]. split; [lia | done].
Qed.

Lemma chain_ok_flush (c : pixel) (rest : list action) :
  chain_ok (A_flush c :: rest) = true → c = pix_white.
Proof.
  cbn [chain_ok action_slot flush_ok]. intros [H1 _]%andb_prop.
  by apply bool_decide_eq_true in H1.
Qed.

(** The readiness of a slot does not depend on the other slots. *)
Lemma ready_for_other (o : option slot_kind) (fl : list bool)
    (ts : list (option thread)) (j w : nat) (b : bool) (t : option thread) :
  j ≠ w → ready_for o fl ts j → ready_for o (<[w := b]> fl) (<[w := t]> ts) j.
Proof.
  intros Hne. unfold ready_for.
  rewrite !list_lookup_insert_ne by done. done.
Qed.

(** The table after a section of the main thread on slot [w]: what the
    next section on every slot relies on holds again. *)
Lemma ready_after_write (a : action) (rest : list action) (k : slot_kind) (i : Z)
    (fl : list bool) (ts : list (option thread)) (b : bool) (t : option thread) :
  action_slot a = Some (k, i) →
  chain_ok (a :: rest) = true →
  (∀ j, ready_for (first_about j (a :: rest)) fl ts j) →
  (Z.to_nat i < length fl)%nat → (Z.to_nat i < length ts)%nat →
  match k with
  | K_cancel => b = false
  | K_mark => b = true ∧ t = None
  | K_create => True
  end →
  ∀ j, ready_for (first_about j rest) (<[Z.to_nat i := b]> fl) (<[Z.to_nat i := t]> ts) j.
Proof.
  intros Ha Hchain Hready Hfl Hts Hk j.
  destruct (chain_ok_cons _ _ Hchain) as [_ Hfol].
  destruct (Hfol k i Ha) as [_ Hf].
  destruct (decide (j = Z.to_nat i)) as [->|Hne].
  - unfold ready_for.
    rewrite !list_lookup_insert_eq by done.
    destruct k, (first_about (Z.to_nat i) rest) as [[]|]; try done.
    + by subst b.
    + destruct Hk as [-> ->]. done.
  - apply ready_for_other; [done|].
    specialize (Hready j). rewrite first_about_skip in Hready; [done|].
    intros k' i' Ha'. rewrite Ha in Ha'. injection Ha' as <- <-. done.
Qed.

Lemma elem_of_flush_tail (a : action) (rest : list action) (c : pixel) :
  a ≠ A_flush c → A_flush c ∈ a :: rest → A_flush c ∈ rest.
Proof. intros Hne [Heq|H]%elem_of_cons; [congruence | done]. Qed.

Lemma program_advance (a : action) (rest : list action) :
  (∃ d, is_program (d ++ a :: rest)) → ∃ d, is_program (d ++ rest).
Proof. intros [d Hd]. exists (d ++ [a]). by rewrite <- app_assoc. Qed.

Lemma program_empty : is_program [].
Proof. right. right. by exists 0, 0. Qed.

(** A section of the main thread that touches no slot. *)
Lemma inv_after_plain (st st' : engine) (a : action) (rest : list action) :
  engine_inv st → exited st = None → pending st = a :: rest →
  action_slot a = None →
  live_threads st' = live_threads st →
  num_live_threads st' = num_live_threads st →
  threads st' = threads st →
  pending st' = rest → exited st' = None →
  length (pixbuf st') = Z.to_nat (WIDTH * HEIGHT) →
  fits_bounds (bnd st') →
  (A_flush pix_white ∈ rest ∨ margin_white (pixbuf st')) →
  engine_inv st'.
Proof.
  intros [Hpool Hlen Hprog Hchain Hready Hfits Hmargin Hex] Hne Hp Ha Hl Hn Ht Hp' He' Hlen' Hf' Hm'.
  unfold slot_ready in Hready. rewrite Hp in Hprog, Hchain, Hready.
  constructor.
  - by rewrite Hl, Hn, Ht.
  - done.
  - rewrite Hp'. by eapply program_advance.
  - rewrite Hp'. by destruct (chain_ok_cons _ _ Hchain).
  - intros j. unfold slot_ready. rewrite Hp', Hl, Ht.
    specialize (Hready j). rewrite first_about_skip in Hready; [done|].
    intros k i Hk. congruence.
  - done.
  - intros _. by rewrite Hp'.
  - by rewrite He'.
Qed.

(** A section of the main thread on slot [i]. *)
Lemma inv_after_slot (st st' : engine) (a : action) (rest : list action)
    (k : slot_kind) (i : Z) (b0 b : bool) (t : option thread) :
  engine_inv st → exited st = None → pending st = a :: rest →
  action_slot a = Some (k, i) →
  live_threads st !! Z.to_nat i = Some b0 →
  live_threads st' = <[Z.to_nat i := b]> (live_threads st) →
  num_live_threads st' =
    num_live_threads st - (if b0 then 1 else 0) + (if b then 1 else 0) →
  threads st' = <[Z.to_nat i := t]> (threads st) →
  pending st' = rest → exited st' = None →
  pixbuf st' = pixbuf st → bnd st' = bnd st →
  match k with
  | K_cancel => b = false
  | K_mark => b = true ∧ t = None
  | K_create => True
  end →
  (∀ t0, t = Some t0 → b = true ∧ thread_ok (Z.to_nat i) t0) →
  engine_inv st'.
Proof.
  intros [Hpool Hlen Hprog Hchain Hready Hfits Hmargin Hex] Hne Hp Ha Hb0 Hl Hn Ht Hp' He' Hpix Hbnd Hk Hthr.
  unfold slot_ready in Hready. specialize (Hmargin Hne).
  rewrite Hp in Hprog, Hchain, Hready, Hmargin.
  assert (Hi : (Z.to_nat i < length (live_threads st))%nat) by (by eapply lookup_lt_Some).
  assert (Hi' : (Z.to_nat i < length (threads st))%nat).
  { destruct Hpool as (H1 & H2 & _). by rewrite H2, <- H1. }
  constructor.
  - rewrite Hl, Hn, Ht. by apply pool_ok_write.
  - by rewrite Hpix.
  - rewrite Hp'. by eapply program_advance.
  - rewrite Hp'. by destruct (chain_ok_cons _ _ Hchain).
  - intros j. unfold slot_ready. rewrite Hp', Hl, Ht.
    by eapply ready_after_write.
  - by rewrite Hbnd.
  - intros _. rewrite Hp', Hpix. destruct Hmargin as [Hin|Hm]; [left|by right].
    eapply elem_of_flush_tail; [|done]. intros ->. discriminate Ha.
  - by rewrite He'.
Qed.

(** After [exit] nothing is pending and no thread is left. *)
Lemma inv_after_exit (st st1 : engine) (code : Z) :
  engine_inv st →
  live_threads st1 = live_threads st →
  num_live_threads st1 = num_live_threads st →
  length (threads st1) = length (threads st) →
  pixbuf st1 = pixbuf st → bnd st1 = bnd st →
  engine_inv (exit code st1).
Proof.
  intros [Hpool Hlen Hprog Hchain Hready Hfits Hmargin Hex] Hl Hn Ht Hpix Hbnd.
  destruct Hpool as (H1 & H2 & H3 & H4).
  constructor; cbn [exit live_threads num_live_threads threads pixbuf pending bnd exited].
  - rewrite Hl, Hn, Ht.
    split; [done|]. split; [by rewrite length_replicate|]. split; [done|].
    intros i t Hi. apply lookup_replicate in Hi as [? _]. done.
  - by rewrite Hpix.
  - exists []. apply program_empty.
  - done.
  - intros j. unfold slot_ready. cbn. done.
  - by rewrite Hbnd.
  - discriminate.
  - intros _. split; [done|]. intros i t Hi. by apply lookup_replicate in Hi as [? _].
Qed.

Lemma slot_params_of_nat (i : Z) : 0 <= i → slot_params (Z.of_nat (Z.to_nat i)) = slot_params i.
Proof. intros Hi. by rewrite Z2Nat.id. Qed.

Lemma margin_white_flush (buf : list pixel) :
  length buf = Z.to_nat (WIDTH * HEIGHT) → margin_white (flush_pixels pix_white buf).
Proof.
  intros Hlen x y Hx Hy. apply pixel_at_flush; [done| |done].
  unfold THR_MAX_ACTIVE, WIDTH in *. change (1366 ÷ 4) with 341 in Hx. lia.
Qed.

Ltac slot_section st a rest k i b0 b t Hinv Hne Hp Hb0 :=
  match goal with
  | |- engine_inv ?s' =>
      refine (inv_after_slot st s' a rest k i b0 b t Hinv Hne Hp eq_refl Hb0
                _ _ _ eq_refl Hne eq_refl eq_refl _ _)
  end.

(** Every atomic section of the main thread keeps the invariant. *)
Lemma exec_inv (st : engine) (a : action) (rest : list action) (ok : bool) :
  engine_inv st → exited st = None → pending st = a :: rest →
  engine_inv (exec a ok (with_pending rest st)).
Proof.
  intros Hinv Hne Hp.
  pose proof Hinv as [Hpool Hlen Hprog Hchain Hready Hfits Hmargin Hex].
  specialize (Hmargin Hne). unfold slot_ready in Hready.
  rewrite Hp in Hchain, Hready, Hmargin.
  pose proof (chain_ok_cons _ _ Hchain) as [_ Hslot].
  pose proof Hpool as (Hfl & Hts & _ & _).
  assert (Hlook : ∀ i, 0 <= i < THR_MAX_ACTIVE →
                       ∃ b0, live_threads st !! Z.to_nat i = Some b0).
  { intros i Hi. apply lookup_lt_is_Some_2. rewrite Hfl. lia. }
  destruct a as [key|c|i|i|i|l|i|code].
  - (* A_bounds *)
    match goal with |- engine_inv ?s' =>
      apply (inv_after_plain st s' _ rest Hinv Hne Hp eq_refl eq_refl eq_refl eq_refl eq_refl Hne)
    end.
    + exact Hlen.
    + cbn. apply next_bounds_fits.
    + cbn. destruct Hmargin as [Hin|Hm]; [left|by right].
      eapply elem_of_flush_tail; [|exact Hin]; discriminate.
  - (* A_flush *)
    pose proof (chain_ok_flush _ _ Hchain) as ->.
    match goal with |- engine_inv ?s' =>
      apply (inv_after_plain st s' _ rest Hinv Hne Hp eq_refl eq_refl eq_refl eq_refl eq_refl Hne)
    end.
    + cbn. by rewrite length_flush_pixels.
    + exact Hfits.
    + cbn. right. by apply margin_white_flush.
  - (* A_cancel *)
    destruct (Hslot K_cancel i eq_refl) as [Hi _].
    destruct (Hlook i Hi) as [b0 Hb0].
    cbn [exec]. unfold cancel_slot. cbn [with_pending live_threads].
    rewrite Hb0. destruct b0.
    + slot_section st (A_cancel i) rest K_cancel i true false (@None thread) Hinv Hne Hp Hb0.
      * reflexivity.
      * cbn. lia.
      * reflexivity.
      * reflexivity.
      * discriminate.
    + slot_section st (A_cancel i) rest K_cancel i false false (@None thread) Hinv Hne Hp Hb0.
      * cbn. symmetry. by apply list_insert_id.
      * cbn. lia.
      * cbn. symmetry. apply list_insert_id. by eapply pool_ok_free.
      * reflexivity.
      * discriminate.
  - (* A_mark *)
    pose proof (Hready (Z.to_nat i)) as Hr.
    rewrite (first_about_here (A_mark i) rest K_mark i eq_refl) in Hr. cbn in Hr.
    slot_section st (A_mark i) rest K_mark i false true (@None thread) Hinv Hne Hp Hr.
    + reflexivity.
    + cbn. lia.
    + cbn. symmetry. apply list_insert_id. by eapply pool_ok_free.
    + done.
    + discriminate.
  - (* A_create *)
    destruct (Hslot K_create i eq_refl) as [Hi _].
    pose proof (Hready (Z.to_nat i)) as Hr.
    rewrite (first_about_here (A_create i) rest K_create i eq_refl) in Hr. cbn in Hr.
    destruct Hr as [Hfl1 Hts1].
    destruct ok.
    + slot_section st (A_create i) rest K_create i true true
        (Some (T_start (slot_params i))) Hinv Hne Hp Hfl1.
      * cbn. symmetry. by apply list_insert_id.
      * cbn. lia.
      * reflexivity.
      * done.
      * intros t0 [= <-]. split; [done|]. split; [|done].
        cbn. symmetry. apply slot_params_of_nat. lia.
    + cbn [exec]. eapply inv_after_exit; [exact Hinv|..]; reflexivity.
  - (* A_print *)
    match goal with |- engine_inv ?s' =>
      apply (inv_after_plain st s' _ rest Hinv Hne Hp eq_refl eq_refl eq_refl eq_refl eq_refl Hne)
    end.
    + exact Hlen.
    + exact Hfits.
    + cbn. destruct Hmargin as [Hin|Hm]; [left|by right].
    eapply elem_of_flush_tail; [|exact Hin]; discriminate.
  - (* A_shutdown *)
    destruct (Hslot K_cancel i eq_refl) as [Hi _].
    destruct (Hlook i Hi) as [b0 Hb0].
    cbn [exec with_pending live_threads].
    rewrite Hb0. destruct b0.
    + slot_section st (A_shutdown i) rest K_cancel i true false (@None thread) Hinv Hne Hp Hb0.
      * reflexivity.
      * cbn. lia.
      * reflexivity.
      * reflexivity.
      * discriminate.
    + slot_section st (A_shutdown i) rest K_cancel i false false (@None thread) Hinv Hne Hp Hb0.
      * cbn. symmetry. by apply list_insert_id.
      * cbn. lia.
      * cbn. symmetry. apply list_insert_id. by eapply pool_ok_free.
      * reflexivity.
      * discriminate.
  - (* A_return *)
    cbn [exec]. eapply inv_after_exit; [exact Hinv|..]; reflexivity.
Qed.

(** What a step of the thread behind [threads[i]] changes: either the
    thread goes on, having painted at most the pixel under its loop
    variables, which was white; or it releases its slot and is gone. *)
Lemma thread_step_cases (i : nat) (st st' : engine) :
  thread_step i st = Some st' →
  ∃ t, threads st !! i = Some (Some t)
       ∧ bnd st' = bnd st ∧ pending st' = pending st ∧ exited st' = exited st
       ∧ ((∃ t', threads st' = <[i := Some t']> (threads st)
                 ∧ live_threads st' = live_threads st
                 ∧ num_live_threads st' = num_live_threads st
                 ∧ (∀ j, thread_ok j t → thread_ok j t')
                 ∧ (pixbuf st' = pixbuf st
                    ∨ ∃ p x y, t = T_scan p x y ∧ x <= p_right p
                               ∧ pixel_at (pixbuf st) x y = Some pix_white
                               ∧ pixbuf st' =
                                 <[Z.to_nat (pixel_index x y) :=
                                     get_color (pixel_iterations (bnd st) x y)]>
                                   (pixbuf st)))
          ∨ (∃ p, t = T_release p
                  ∧ threads st' = <[i := None]> (threads st)
                  ∧ pixbuf st' = pixbuf st
                  ∧ if thr_index p >=? 0
                    then live_threads st' =
                           <[Z.to_nat (thr_index p) := false]> (live_threads st)
                         ∧ num_live_threads st' = num_live_threads st - 1
                    else live_threads st' = live_threads st
                         ∧ num_live_threads st' = num_live_threads st)).
Proof.
  unfold thread_step.
  destruct (threads st !! i) as [[t|]|] eqn:Ht; [|done|done].
  destruct t as [p|p x y|p].
  - intros [= <-]. exists (T_start p). repeat (split; [reflexivity|]).
    left. eexists. repeat (split; [reflexivity|]). split; [|by left].
    intros j [Hp Hl]. split; [exact Hp | cbn in *; lia].
  - destruct (y >? p_top p) eqn:Hy.
    { intros [= <-]. exists (T_scan p x y). repeat (split; [reflexivity|]).
      left. eexists. repeat (split; [reflexivity|]). split; [|by left].
      intros j [Hp _]. split; [exact Hp | exact I]. }
    destruct (x >? p_right p) eqn:Hx.
    { intros [= <-]. exists (T_scan p x y). repeat (split; [reflexivity|]).
      left. eexists. repeat (split; [reflexivity|]). split; [|by left].
      intros j [Hp Hl]. split; [exact Hp | cbn in *; lia]. }
    destruct (pixel_at (pixbuf st) x y) as [c|] eqn:Hc; [|done].
    destruct (decide (c = pix_white)) as [->|Hnw].
    + intros [= <-]. exists (T_scan p x y). repeat (split; [reflexivity|]).
      left. eexists. repeat (split; [reflexivity|]). split.
      * intros j [Hp Hl]. split; [exact Hp | cbn in *; lia].
      * right. exists p, x, y. repeat split; [lia | done].
    + intros [= <-]. exists (T_scan p x y). repeat (split; [reflexivity|]).
      left. eexists. repeat (split; [reflexivity|]). split; [|by left].
      intros j [Hp _]. split; [exact Hp | exact I].
  - intros [= <-]. exists (T_release p). repeat (split; [by destruct (thr_index p >=? 0)|]).
    right. exists p. split; [done|].
    destruct (thr_index p >=? 0); repeat split; reflexivity.
Qed.

Lemma slot_params_columns (i : nat) :
  (i < Z.to_nat THR_MAX_ACTIVE)%nat →
  0 <= p_left (slot_params (Z.of_nat i))
  ∧ p_right (slot_params (Z.of_nat i)) < THR_MAX_ACTIVE * (WIDTH ÷ THR_MAX_ACTIVE)
  ∧ THR_MAX_ACTIVE * (WIDTH ÷ THR_MAX_ACTIVE) <= WIDTH.
Proof.
  intros Hi. unfold slot_params, THR_MAX_ACTIVE, WIDTH in *. cbn [p_left p_right].
  change (1366 ÷ 4) with 341. lia.
Qed.

(** Every step of a compute thread keeps the invariant. *)
Lemma thread_step_inv (i : nat) (st st' : engine) :
  engine_inv st → exited st = None → thread_step i st = Some st' →
  engine_inv st'.
Proof.
  intros [Hpool Hlen Hprog Hchain Hready Hfits Hmargin Hex] Hne Hstep.
  apply thread_step_cases in Hstep
    as (t & Ht & Hbnd & Hpend & Hexit & Hcase).
  pose proof Hpool as (Hfl & Hts & Hcount & Hthr).
  destruct (Hthr i t Ht) as [Hflag Hok].
  assert (Hi : (i < Z.to_nat THR_MAX_ACTIVE)%nat).
  { rewrite <- Hts. by eapply lookup_lt_Some. }
  specialize (Hmargin Hne). unfold slot_ready in Hready.
  destruct Hcase as [(t' & Hts' & Hfl' & Hn' & Hok' & Hpix)|(p & -> & Hts' & Hpix & Hrel)].
  - constructor.
    + rewrite Hts', Hfl', Hn'.
      pose proof (pool_ok_write _ _ _ i true true (Some t') Hpool Hflag) as Hw.
      rewrite (list_insert_id _ _ _ Hflag) in Hw. cbv iota in Hw.
      replace (num_live_threads st - 1 + 1) with (num_live_threads st) in Hw by lia.
      apply Hw. intros t0 [= <-]. split; [done | by apply Hok'].
    + destruct Hpix as [->|(p & x & y & _ & _ & _ & ->)]; [done|].
      by rewrite length_insert.
    + by rewrite Hpend.
    + by rewrite Hpend.
    + intros j. unfold slot_ready. rewrite Hpend, Hts', Hfl'.
      specialize (Hready j). unfold ready_for in *.
      destruct (first_about j (pending st)) as [[]|]; try done.
      destruct Hready as [Hr1 Hr2]. split; [done|].
      destruct (decide (j = i)) as [->|Hji]; [congruence|].
      by rewrite list_lookup_insert_ne.
    + by rewrite Hbnd.
    + intros _. rewrite Hpend. destruct Hmargin as [Hin|Hm]; [by left|right].
      destruct Hpix as [->|(p & x & y & -> & Hx & Hw & ->)]; [done|].
      intros x' y' Hx' Hy'.
      destruct Hok as [Hp Hl]. cbn in Hp, Hl. subst p.
      destruct (slot_params_columns i Hi) as (Hc1 & Hc2 & Hc3).
      rewrite pixel_at_insert_other; [by apply Hm | lia | lia | lia |].
      unfold pixel_at in Hw. destruct (pixel_index x y <? 0) eqn:E; [done | lia].
    + by rewrite Hexit.
  - destruct Hok as [Hp _]. cbn in Hp. subst p.
    cbn [slot_params thr_index] in Hrel.
    assert (Hge : (Z.of_nat i >=? 0) = true) by lia.
    unfold slot_params in Hrel. cbn [thr_index] in Hrel.
    rewrite Hge, Nat2Z.id in Hrel. destruct Hrel as [Hfl' Hn'].
    constructor.
    + rewrite Hts', Hfl', Hn'.
      pose proof (pool_ok_write _ _ _ i true false None Hpool Hflag) as Hw.
      cbv iota in Hw.
      replace (num_live_threads st - 1 + 0) with (num_live_threads st - 1) in Hw by lia.
      apply Hw. intros t0 [=].
    + by rewrite Hpix.
    + by rewrite Hpend.
    + by rewrite Hpend.
    + intros j. unfold slot_ready. rewrite Hpend, Hts', Hfl'.
      specialize (Hready j).
      destruct (decide (j = i)) as [->|Hji].
      * unfold ready_for in *.
        destruct (first_about i (pending st)) as [[]|]; try done.
        -- apply list_lookup_insert_eq. lia.
        -- destruct Hready as [_ Hr2]. congruence.
      * by apply ready_for_other.
    + by rewrite Hbnd.
    + intros _. by rewrite Hpend, Hpix.
    + by rewrite Hexit.
Qed.

Lemma key_callback_chain (key act : Z) : chain_ok (key_callback key act) = true.
Proof. unfold key_callback. destruct (act =? GLFW_PRESS); reflexivity. Qed.

Lemma key_callback_first (key act : Z) (j : nat) :
  first_about j (key_callback key act) ≠ Some K_mark
  ∧ first_about j (key_callback key act) ≠ Some K_create.
Proof.
  unfold key_callback. destruct (act =? GLFW_PRESS); [|done].
  destruct j as [|[|[|[|j]]]]; done.
Qed.

Lemma main_cleanup_first (j : nat) :
  first_about j main_cleanup ≠ Some K_mark
  ∧ first_about j main_cleanup ≠ Some K_create.
Proof. destruct j as [|[|[|[|j]]]]; done. Qed.

(** Back in its loop, the main thread may take up any of its programs. *)
Lemma inv_new_program (st : engine) (prog : list action) :
  engine_inv st → exited st = None → pending st = [] →
  is_program prog → chain_ok prog = true →
  (∀ j, first_about j prog ≠ Some K_mark ∧ first_about j prog ≠ Some K_create) →
  engine_inv (with_pending prog st).
Proof.
  intros [Hpool Hlen Hprog Hchain Hready Hfits Hmargin Hex] Hne Hp Hpr Hc Hfirst.
  constructor; cbn [with_pending live_threads num_live_threads threads pixbuf
                    pending bnd exited]; try done.
  - by exists [].
  - intros j. unfold slot_ready. cbn. destruct (Hfirst j) as [H1 H2].
    unfold ready_for. by destruct (first_about j prog) as [[]|].
  - intros _. destruct (Hmargin Hne) as [Hin|Hm]; [|by right].
    rewrite Hp in Hin. by apply not_elem_of_nil in Hin.
Qed.

Lemma initial_engine_inv : engine_inv initial_engine.
Proof.
  constructor; cbn [initial_engine live_threads num_live_threads threads pixbuf
                    pending bnd exited].
  - split; [by rewrite length_replicate|]. split; [by rewrite length_replicate|].
    split; [by rewrite count_live_replicate_false|].
    intros i t Hi. apply lookup_replicate in Hi as [? _]. done.
  - by rewrite length_replicate.
  - exists []. by left.
  - reflexivity.
  - intros j. unfold slot_ready. cbn [initial_engine live_threads threads pending].
    destruct j as [|[|[|[|j]]]]; done.
  - exact initial_bounds_fits.
  - intros _. left. apply list_elem_of_here.
  - done.
Qed.

Lemma step_inv (st st' : engine) : engine_inv st → step st st' → engine_inv st'.
Proof.
  intros Hinv Hstep. destruct Hstep as [st a rest ok Hne Hp|st key act Hne Hp|st Hne Hp|st i st' Hne Hs].
  - by apply exec_inv.
  - apply inv_new_program; [done | done | done | | apply key_callback_chain
                            | apply key_callback_first].
    right. right. by exists key, act.
  - apply inv_new_program; [done | done | done | | reflexivity
                            | apply main_cleanup_first].
    right. by left.
  - by eapply thread_step_inv.
Qed.

(** The invariant holds in every state the program reaches. *)
Lemma reachable_inv (st : engine) : reachable st → engine_inv st.
Proof.
  unfold reachable. intros H.
  eapply (rtc_ind_r (λ s, engine_inv s)); [apply initial_engine_inv | | exact H].
  intros y z _ Hs IH. by eapply step_inv.
Qed.

(** ** The workers finish *)

Lemma thread_rem_nonneg (t : option thread) : 0 <= thread_rem t.
Proof.
  destruct t as [[p|p x y|p]|]; cbn [thread_rem]; try lia.
  - destruct (p_bottom p >? p_top p) eqn:E; [lia|]. nia.
  - destruct (y >? p_top p) eqn:E; [lia|]. nia.
Qed.

Lemma pool_rem_nonneg (ts : list (option thread)) : 0 <= pool_rem ts.
Proof.
  induction ts as [|t ts IH]; cbn [pool_rem foldr]; [lia|].
  fold (pool_rem ts). pose proof (thread_rem_nonneg t). lia.
Qed.

Lemma pool_rem_insert (ts : list (option thread)) (i : nat) (t t' : option thread) :
  ts !! i = Some t →
  pool_rem (<[i := t']> ts) = pool_rem ts - thread_rem t + thread_rem t'.
Proof.
  revert i. induction ts as [|t0 ts IH]; intros i Hi; [done|].
  destruct i as [|i].
  - injection Hi as ->. change (<[0%nat := t']> (t :: ts)) with (t' :: ts).
    cbn [pool_rem foldr]. lia.
  - change (<[S i := t']> (t0 :: ts)) with (t0 :: <[i := t']> ts).
    change ((t0 :: ts) !! S i) with (ts !! i) in Hi.
    cbn [pool_rem foldr]. fold (pool_rem ts). fold (pool_rem (<[i := t']> ts)).
    rewrite (IH i Hi). lia.
Qed.

(** Either no thread is left or one of them can be picked. *)
Lemma all_gone_or_live (ts : list (option thread)) :
  (∀ i t, ts !! i = Some t → t = None) ∨ (∃ i t, ts !! i = Some (Some t)).
Proof.
  induction ts as [|[t|] ts IH].
  - left. intros i t Hi. done.
  - right. by exists 0%nat, t.
  - destruct IH as [IH|(i & t & Hi)].
    + left. intros [|i] t Hi; [by injection Hi as <-|]. by eapply IH.
    + right. by exists (S i), t.
Qed.

(** A thread of a reachable state is never stuck, and each of its steps
    brings it closer to its end. *)
Lemma thread_step_progress (i : nat) (st : engine) (t : thread) :
  engine_inv st → threads st !! i = Some (Some t) →
  ∃ st' t', thread_step i st = Some st'
            ∧ threads st' = <[i := t']> (threads st)
            ∧ thread_rem t' < thread_rem (Some t).
Proof.
  intros [Hpool Hlen _ _ _ _ _ _] Ht.
  destruct Hpool as (_ & Hts & _ & Hthr).
  destruct (Hthr i t Ht) as [_ [Hp Hl]].
  assert (Hi : (i < Z.to_nat THR_MAX_ACTIVE)%nat).
  { rewrite <- Hts. by eapply lookup_lt_Some. }
  unfold thread_step. rewrite Ht.
  destruct t as [p|p x y|p]; cbn [thread_params] in Hp; subst p.
  - eexists _, _. split; [reflexivity|]. split; [reflexivity|].
    cbn [thread_rem]. destruct (_ >? _); lia.
  - cbn [thread_rem].
    set (p := slot_params (Z.of_nat i)) in *.
    destruct (y >? p_top p) eqn:Hy.
    { eexists _, _. split; [reflexivity|]. split; [reflexivity|]. cbn. lia. }
    destruct (x >? p_right p) eqn:Hx.
    { eexists _, _. split; [reflexivity|]. split; [reflexivity|].
      cbn [thread_rem]. destruct (y + 1 >? p_top p) eqn:Hy'; nia. }
    assert (Hin : is_Some (pixel_at (pixbuf st) x y)).
    { unfold pixel_at.
      assert (0 <= x < WIDTH ∧ 0 <= y < HEIGHT) as [Hx' Hy'].
      { subst p. unfold slot_params, THR_MAX_ACTIVE, WIDTH, HEIGHT in *.
        cbn [p_left p_right p_top p_bottom] in *.
        change (1366 ÷ 4) with 341 in *. lia. }
      pose proof (pixel_index_range x y Hx' Hy') as Hr.
      destruct (pixel_index x y <? 0) eqn:E; [lia|].
      apply lookup_lt_is_Some_2. rewrite Hlen. lia. }
    destruct Hin as [c Hc]. rewrite Hc.
    destruct (decide (c = pix_white)).
    + eexists _, _. split; [reflexivity|]. split; [reflexivity|].
      cbn [thread_rem]. rewrite Hy. lia.
    + eexists _, _. split; [reflexivity|]. split; [reflexivity|].
      cbn [thread_rem]. nia.
  - eexists _, _. split; [reflexivity|].
    split; [by destruct (thr_index _ >=? 0)|]. cbn. lia.
Qed.

(** From a state in which the main thread is in its loop, the threads
    that run can be run to their end. *)
Lemma workers_finish (m : nat) (st : engine) :
  engine_inv st → exited st = None → pending st = [] →
  pool_rem (threads st) <= Z.of_nat m →
  ∃ st', rtc step st st' ∧ exited st' = None ∧ pending st' = []
         ∧ ∀ i t, threads st' !! i = Some t → t = None.
Proof.
  revert st. induction m as [|m IH]; intros st Hinv He Hp Hm.
  - exists st. split; [apply rtc_refl|]. split; [done|]. split; [done|].
    destruct (all_gone_or_live (threads st)) as [H|(i & t & Hi)]; [done|].
    destruct (thread_step_progress i st t Hinv Hi) as (st' & t' & _ & _ & Hlt).
    pose proof (thread_rem_nonneg t').
    pose proof (pool_rem_insert (threads st) i (Some t) None Hi) as Hins.
    pose proof (pool_rem_nonneg (<[i := None]> (threads st))).
    change (thread_rem None) with 0 in Hins. lia.
  - destruct (all_gone_or_live (threads st)) as [H|(i & t & Hi)].
    { exists st. split; [apply rtc_refl|]. done. }
    destruct (thread_step_progress i st t Hinv Hi) as (st1 & t' & Hs & Hts & Hlt).
    pose proof (thread_step_cases i st st1 Hs) as (_ & _ & _ & Hp1 & He1 & _).
    destruct (IH st1) as (st' & Hrtc & He' & Hp' & Hall).
    + by eapply thread_step_inv.
    + by rewrite He1.
    + by rewrite Hp1.
    + rewrite Hts, (pool_rem_insert _ _ _ _ Hi). lia.
    + exists st'. split; [|done].
      eapply rtc_l; [|exact Hrtc]. exact (step_thread st i st1 He Hs).
Qed.

(** From a state in which the main thread is back in its loop the workers
    alone can run until the last of them has released its slot. *)
Lemma completed_pass_reachable (st : engine) :
  reachable st → exited st = None → pending st = [] →
  ∃ st', rtc step st st' ∧ reachable st' ∧ exited st' = None ∧ pending st' = []
         ∧ ∀ i t, threads st' !! i = Some t → t = None.
Proof.
  intros Hst He Hp.
  pose proof (reachable_inv st Hst) as Hinv.
  pose proof (pool_rem_nonneg (threads st)) as Hnn.
  destruct (workers_finish (Z.to_nat (pool_rem (threads st))) st Hinv He Hp)
    as (st' & Hrtc & He' & Hp' & Hall).
  { rewrite Z2Nat.id by exact Hnn. lia. }
  exists st'. split; [exact Hrtc|]. split; [|done].
  unfold reachable in *. by etrans.
Qed.

(** ** Theorems on the thread pool *)

(** What the main thread does on its own is part of what the program
    does. *)
Lemma run_main_reachable (n : nat) (oks : Z → bool) (st : engine) :
  reachable st → reachable (run_main n oks st).
Proof.
  revert st. induction n as [|n IH]; intros st Hst; [done|].
  cbn [run_main].
  destruct (exited st) eqn:He; [done|].
  destruct (pending st) as [|a rest] eqn:Hp; [done|].
  apply IH. eapply rtc_r; [exact Hst|]. by apply step_main.
Qed.

Lemma started_reachable : reachable started.
Proof. apply run_main_reachable. apply rtc_refl. Qed.




(** The equality rests on the cancelled thread making no further step:
    a thread that ran its release section after its slot had been cleared
    would take the count below the number of set flags. *)
Remark release_of_cleared_slot_miscounts :
  let st := Engine initial_bounds [] [Some (T_release (slot_params 0))]
                   [false] 0 [] [] None in
  ∃ st', thread_step 0 st = Some st'
         ∧ num_live_threads st' = -1 ∧ count_live (live_threads st') = 0.
Proof. eexists. split; [reflexivity|]. split; reflexivity. Qed.

(** C1 fails on the program: [start_mandelbrot] gives slot [i] the
    columns [i * 341 .. i * 341 + 340], because [WIDTH / THR_MAX_ACTIVE]
    is the truncated quotient 341, so the four sectors end at column 1363
    and columns 1364 and 1365 belong to no sector.  Whenever the main
    thread is back in its loop, every pixel of these two columns holds
    the white sentinel; and from every such state the workers can run
    until all of them have finished, which leaves a completed pass whose
    two last columns are still white. *)
Theorem right_margin_stays_white :
  (∀ i, 0 <= i < THR_MAX_ACTIVE →
        p_left (slot_params i) = i * 341 ∧ p_right (slot_params i) = i * 341 + 340
        ∧ p_bottom (slot_params i) = 0 ∧ p_top (slot_params i) = HEIGHT - 1
        ∧ p_right (slot_params i) < 1364)
  ∧ (∀ st, reachable st → exited st = None → pending st = [] →
           ∀ x y, 1364 <= x < WIDTH → 0 <= y < HEIGHT →
                  pixel_at (pixbuf st) x y = Some pix_white)
  ∧ ∀ st, reachable st → exited st = None → pending st = [] →
          ∃ st', rtc step st st' ∧ exited st' = None ∧ pending st' = []
                 ∧ (∀ i t, threads st' !! i = Some t → t = None)
                 ∧ ∀ x y, 1364 <= x < WIDTH → 0 <= y < HEIGHT →
                          pixel_at (pixbuf st') x y = Some pix_white.
Proof.
  assert (Hwhite : ∀ st, reachable st → exited st = None → pending st = [] →
                         ∀ x y, 1364 <= x < WIDTH → 0 <= y < HEIGHT →
                                pixel_at (pixbuf st) x y = Some pix_white).
  { intros st Hst Hne Hp x y Hx Hy.
    apply reachable_inv in Hst.
    destruct (inv_margin st Hst Hne) as [Hin|Hm].
    - rewrite Hp in Hin. by apply not_elem_of_nil in Hin.
    - apply Hm; [|done]. unfold THR_MAX_ACTIVE, WIDTH in *.
      change (1366 ÷ 4) with 341. lia. }
  split; [|split; [exact Hwhite|]].
  - intros i Hi. unfold slot_params, THR_MAX_ACTIVE, WIDTH, HEIGHT in *.
    cbn [p_left p_right p_top p_bottom]. change (1366 ÷ 4) with 341. lia.
  - intros st Hst Hne Hp.
    destruct (completed_pass_reachable st Hst Hne Hp)
      as (st' & Hrtc & Hst' & Hne' & Hp' & Hall).
    exists st'. split; [exact Hrtc|]. split; [exact Hne'|].
    split; [exact Hp'|]. split; [exact Hall|].
    exact (Hwhite st' Hst' Hne' Hp').
Qed.

Lemma right_margin_stays_white_witness :
  pixel_at (pixbuf started) 1364 0 = Some pix_white
  ∧ pixel_at (pixbuf started) 1365 767 = Some pix_white.
Proof.
  destruct right_margin_stays_white as [_ [H _]].
  assert (He : exited started = None) by reflexivity.
  assert (Hp : pending started = []) by reflexivity.
  split; apply (H started started_reachable He Hp); unfold WIDTH, HEIGHT; lia.
Defined.




Lemma run_main_S (n : nat) (oks : Z → bool) (st : engine) (a : action)
    (rest : list action) :
  exited st = None → pending st = a :: rest →
  run_main (S n) oks st =
  run_main n oks (exec a (match a with A_create i => oks i | _ => true end)
                         (with_pending rest st)).
Proof. intros He Hp. cbn [run_main]. by rewrite He, Hp. Qed.


Lemma run_main_exited (n : nat) (oks : Z → bool) (st : engine) :
  exited st ≠ None → run_main n oks st = st.
Proof. intros He. destruct n; [done|]. cbn [run_main]. by destruct (exited st). Qed.

Lemma no_step_after_exit (st st' : engine) : exited st ≠ None → ¬ step st st'.
Proof. intros He Hs. by destruct Hs. Qed.

(** C8: when [pthread_create] fails in the dispatch loop, the program
    prints "failed to spawn thread.." and calls [exit (10)]: the process
    ends with status 10, every thread with it, nothing of the dispatch is
    left pending and no further step is taken, so the program does not
    go on with a partly dispatched pool. *)
Theorem spawn_failure_is_fatal (st : engine) (i : Z) (rest : list action) :
  exited st = None → pending st = A_create i :: rest →
  let st' := exec (A_create i) false (with_pending rest st) in
  step st st'
  ∧ exited st' = Some 10
  ∧ last (stdout st') = Some ("failed to spawn thread..\n"%string, [])
  ∧ pending st' = []
  ∧ (∀ j t, threads st' !! j = Some t → t = None)
  ∧ live_threads st' = live_threads st
  ∧ (∀ st'', ¬ step st' st'')
  ∧ (∀ n oks, run_main n oks st' = st').
Proof.
  intros He Hp st'. split; [by apply step_main|].
  split; [reflexivity|].
  split; [cbn; by rewrite last_snoc|].
  split; [reflexivity|].
  split; [intros j t Ht; cbn in Ht; by apply lookup_replicate in Ht as [? _]|].
  split; [reflexivity|].
  split; [intros st''; by apply no_step_after_exit|].
  intros n oks. by apply run_main_exited.
Qed.

Lemma spawn_failure_is_fatal_witness :
  let st' := exec (A_create 0) false
               (with_pending (skipn 7 main_startup) at_first_create) in
  exited st' = Some 10 ∧ ∀ st'', ¬ step st' st''.
Proof.
  intros st'.
  assert (He : exited at_first_create = None) by reflexivity.
  assert (Hp : pending at_first_create = A_create 0 :: skipn 7 main_startup)
    by reflexivity.
  destruct (spawn_failure_is_fatal at_first_create 0 _ He Hp)
    as (_ & H1 & _ & _ & _ & _ & H2 & _).
  split; [exact H1 | exact H2].
Defined.

(** C7: a thread at the head of its inner loop, with a pixel of its
    sector under its loop variables, reads that pixel in its critical
    section on the raster.  If the pixel is not white the thread writes
    nothing and [compute_mandelbrot_sub] returns: the next step of the
    thread releases its slot, again without a write to the raster, and
    after that the thread makes no step, so no other pixel of its sector
    is written by it.  If the pixel is white the thread paints it with
    [get_color] and moves on to the next column. *)
Theorem claimed_pixel_ends_scan (st : engine) (i : nat) (p : mandelbrot_params)
    (x y : Z) (c : pixel) :
  threads st !! i = Some (Some (T_scan p x y)) →
  y <= p_top p → x <= p_right p →
  pixel_at (pixbuf st) x y = Some c →
  (c ≠ pix_white →
     ∃ st1 st2,
       thread_step i st = Some st1
       ∧ pixbuf st1 = pixbuf st
       ∧ threads st1 !! i = Some (Some (T_release p))
       ∧ thread_step i st1 = Some st2
       ∧ pixbuf st2 = pixbuf st
       ∧ threads st2 !! i = Some None
       ∧ thread_step i st2 = None)
  ∧ (c = pix_white →
     ∃ st1,
       thread_step i st = Some st1
       ∧ pixbuf st1 =
         <[Z.to_nat (pixel_index x y) := get_color (pixel_iterations (bnd st) x y)]>
           (pixbuf st)
       ∧ threads st1 !! i = Some (Some (T_scan p (x + 1) y))).
Proof.
  intros Ht Hy Hx Hc.
  assert (Hy' : (y >? p_top p) = false) by lia.
  assert (Hx' : (x >? p_right p) = false) by lia.
  assert (Hi : (i < length (threads st))%nat) by (by eapply lookup_lt_Some).
  split.
  - intros Hnw.
    set (st1 := with_threads (<[i := Some (T_release p)]> (threads st)) st).
    assert (H1 : thread_step i st = Some st1).
    { unfold thread_step. rewrite Ht, Hy', Hx', Hc. by destruct (decide (c = pix_white)). }
    assert (Ht1 : threads st1 !! i = Some (Some (T_release p))).
    { cbn. by apply list_lookup_insert_eq. }
    destruct (thread_step i st1) as [st2|] eqn:H2.
    + exists st1, st2.
      pose proof H2 as H2'. unfold thread_step in H2'. rewrite Ht1 in H2'.
      injection H2' as <-.
      assert (Ht2 : ∀ s, threads (with_threads (<[i := None]> (threads s)) s) !! i
                         = Some None
                         → thread_step i (with_threads (<[i := None]> (threads s)) s)
                           = None).
      { intros s Hs. unfold thread_step. by rewrite Hs. }
      repeat split; try done.
      * by destruct (thr_index p >=? 0).
      * destruct (thr_index p >=? 0); cbn;
          apply list_lookup_insert_eq; by rewrite length_insert.
      * apply Ht2. destruct (thr_index p >=? 0); cbn;
          apply list_lookup_insert_eq; by rewrite length_insert.
    + unfold thread_step in H2. by rewrite Ht1 in H2.
  - intros ->. eexists. split.
    + unfold thread_step. rewrite Ht, Hy', Hx', Hc.
      destruct (decide (pix_white = pix_white)); [reflexivity | done].
    + split; [reflexivity|]. cbn. by apply list_lookup_insert_eq.
Qed.

Lemma claimed_pixel_ends_scan_witness :
  ∃ st1 st2,
    thread_step 0 claimed_engine = Some st1 ∧ pixbuf st1 = [pix_black]
    ∧ thread_step 0 st1 = Some st2 ∧ pixbuf st2 = [pix_black]
    ∧ thread_step 0 st2 = None.
Proof.
  destruct (claimed_pixel_ends_scan claimed_engine 0 (Params 0 0 0 0 0) 0 0 pix_black
              eq_refl ltac:(cbn; lia) ltac:(cbn; lia) eq_refl) as [H _].
  destruct (H ltac:(discriminate)) as (st1 & st2 & H1 & H2 & _ & H3 & H4 & _ & H5).
  exists st1, st2. repeat split; assumption.
Defined.

(** [start_mandelbrot] run by the main thread alone, every
    [pthread_create] succeeding: whatever ran is cancelled, four new
    threads are created and all four slots are marked. *)
Lemma run_start_mandelbrot (b : bounds) (pix : list pixel)
    (ts : list (option thread)) (fl : list bool) (n : Z) (out : list line) :
  length fl = Z.to_nat THR_MAX_ACTIVE → length ts = Z.to_nat THR_MAX_ACTIVE →
  let st' := run_main 12 (λ _, true)
               (Engine b pix ts fl n start_mandelbrot out None) in
  bnd st' = b ∧ pixbuf st' = pix
  ∧ threads st' = fresh_threads
  ∧ live_threads st' = [true; true; true; true]
  ∧ pending st' = [] ∧ exited st' = None.
Proof.
  intros Hfl Hts.
  destruct fl as [|f0 [|f1 [|f2 [|f3 [|]]]]]; try discriminate Hfl.
  destruct ts as [|t0 [|t1 [|t2 [|t3 [|]]]]]; try discriminate Hts.
  destruct f0, f1, f2, f3; cbv zeta;
    (do 5 (split; [reflexivity|])); reflexivity.
Qed.



(** * Further properties of the code *)

(** ** The palette in closed form *)

(** [get_color] with the constants evaluated: the segment size is 85 and
    the scaling by 255 / 85 is a multiplication by 3. *)
Lemma get_color_bands (n : Z) :
  get_color n =
  if n =? 256 then pix_black
  else if n >=? 170 then Pixel 0 0 ((255 - 3 * (n - 255)) mod 256) 0
  else if n >=? 85 then
    Pixel 0 ((255 - 3 * (n - 170)) mod 256) ((3 * (n - 170)) mod 256) 0
  else Pixel ((255 - 3 * (n - 85)) mod 256) ((3 * (n - 85)) mod 256) 0 0.
Proof.
  unfold get_color, MBR_MAX_ITERATIONS, to_uint8.
  change (256 ÷ 3) with 85. cbv zeta.
  change (85 * 2) with 170. change (85 * 3) with 255.
  rewrite !quot_scale. reflexivity.
Qed.

(** X1: The colours [get_color] returns, with the conversion to [uint8_t]
    carried out.  The first band runs from (254, 1, 0) to (2, 253, 0),
    the second from (0, 254, 1) to (0, 2, 253), the third from
    (0, 0, 254) down to (0, 0, 2), and index 255 is (0, 0, 255).  Below
    index 255 every [int] value the function computes for a channel is
    negative or above 255, so what is stored is that value modulo 256. *)
Theorem get_color_closed_form (n : Z) :
  (0 <= n < 85 → get_color n = Pixel (254 - 3 * n) (3 * n + 1) 0 0)
  ∧ (85 <= n < 170 → get_color n = Pixel 0 (509 - 3 * n) (3 * n - 254) 0)
  ∧ (170 <= n < 255 → get_color n = Pixel 0 0 (764 - 3 * n) 0)
  ∧ (n = 255 → get_color n = Pixel 0 0 255 0)
  ∧ (0 <= n < 85 →
     (n - 85) * 255 ÷ 85 < 0 ∧ 255 < 255 - (n - 85) * 255 ÷ 85)
  ∧ (85 <= n < 170 →
     (n - 170) * 255 ÷ 85 < 0 ∧ 255 < 255 - (n - 170) * 255 ÷ 85)
  ∧ (170 <= n < 255 → 255 < 255 - (n - 255) * 255 ÷ 85).
Proof.
  rewrite get_color_bands, !quot_scale.
  split; [|split; [|split; [|split; [|split; [|split]]]]]; intros Hn.
  - destruct (n =? 256) eqn:E1; [lia|].
    destruct (n >=? 170) eqn:E2; [lia|].
    destruct (n >=? 85) eqn:E3; [lia|].
    f_equal; Z.div_mod_to_equations; lia.
  - destruct (n =? 256) eqn:E1; [lia|].
    destruct (n >=? 170) eqn:E2; [lia|].
    destruct (n >=? 85) eqn:E3; [|lia].
    f_equal; Z.div_mod_to_equations; lia.
  - destruct (n =? 256) eqn:E1; [lia|].
    destruct (n >=? 170) eqn:E2; [|lia].
    f_equal; Z.div_mod_to_equations; lia.
  - subst n. reflexivity.
  - lia.
  - lia.
  - lia.
Qed.

(** X2: On the indices the loop can leave behind, 0 to [MBR_MAX_ITERATIONS],
    the palette is injective: two pixels have the same colour only if
    they have the same iteration count.  In particular black is the
    colour of [MBR_MAX_ITERATIONS] alone. *)
Theorem get_color_injective (n m : Z) :
  0 <= n <= MBR_MAX_ITERATIONS → 0 <= m <= MBR_MAX_ITERATIONS →
  (get_color n = get_color m ↔ n = m)
  ∧ (get_color n = pix_black ↔ n = MBR_MAX_ITERATIONS).
Proof.
  intros Hn Hm.
  assert (Hinj : ∀ a b, 0 <= a <= 256 → 0 <= b <= 256 →
                        get_color a = get_color b → a = b).
  { clear. intros a b Ha Hb.
    rewrite !get_color_bands. unfold pix_black.
    destruct (a =? 256) eqn:A1; destruct (b =? 256) eqn:B1;
      [lia | | |];
      destruct (a >=? 170) eqn:A2; destruct (b >=? 170) eqn:B2;
      destruct (a >=? 85) eqn:A3; destruct (b >=? 85) eqn:B3;
      intros [= ?]; Z.div_mod_to_equations; lia. }
  unfold MBR_MAX_ITERATIONS in *.
  split; (split; [|by intros ->]).
  - by apply Hinj.
  - intros H. apply (Hinj n 256); [lia | lia | exact H].
Qed.

Lemma get_color_injective_witness :
  (get_color 0 = get_color 255 ↔ 0 = 255)
  ∧ (get_color 84 = pix_black ↔ 84 = MBR_MAX_ITERATIONS).
Proof.
  split.
  - apply (get_color_injective 0 255); unfold MBR_MAX_ITERATIONS; lia.
  - apply (get_color_injective 84 84); unfold MBR_MAX_ITERATIONS; lia.
Defined.

(** ** The slot finder and the raster reset *)


(** The loop of [get_thr_slot] from index [i] on, with the rounds that
    are left reaching the end of the table. *)
Lemma thr_slot_loop_spec (n : nat) (i : Z) (fl : list bool) :
  0 <= i → (Z.to_nat i + n = length fl)%nat →
  ∃ r, thr_slot_loop n i fl = Some r
       ∧ ((r = -1 ∧ ∀ j, (Z.to_nat i <= j < length fl)%nat → fl !! j = Some true)
          ∨ (i <= r < i + Z.of_nat n
             ∧ fl !! Z.to_nat r = Some false
             ∧ ∀ j, (Z.to_nat i <= j < Z.to_nat r)%nat → fl !! j = Some true)).
Proof.
  revert i. induction n as [|n IH]; intros i Hi Hlen.
  - exists (-1). split; [reflexivity|]. left. split; [done|]. intros j Hj. lia.
  - cbn [thr_slot_loop].
    destruct (fl !! Z.to_nat i) as [[|]|] eqn:Hf.
    + destruct (IH (i + 1)) as (r & Hr & Hcase); [lia | lia |].
      exists r. split; [exact Hr|].
      destruct Hcase as [[-> Hall]|(Hr1 & Hr2 & Hall)]; [left|right].
      * split; [done|]. intros j Hj.
        destruct (decide (j = Z.to_nat i)) as [->|Hne]; [done|]. apply Hall. lia.
      * split; [lia|]. split; [done|]. intros j Hj.
        destruct (decide (j = Z.to_nat i)) as [->|Hne]; [done|]. apply Hall. lia.
    + exists i. split; [reflexivity|]. right.
      split; [lia|]. split; [done|]. intros j Hj. lia.
    + apply lookup_ge_None in Hf. lia.
Qed.

(** X3: [get_thr_slot] on the slot table: it never reads outside the array;
    it returns -1 exactly when every slot is marked live, and otherwise
    the lowest slot whose flag is clear. *)
Theorem get_thr_slot_first_free (fl : list bool) :
  length fl = Z.to_nat THR_MAX_ACTIVE →
  ∃ r, get_thr_slot fl = Some r
       ∧ (r = -1 ↔ ∀ j b, fl !! j = Some b → b = true)
       ∧ (r ≠ -1 →
          0 <= r < THR_MAX_ACTIVE
          ∧ fl !! Z.to_nat r = Some false
          ∧ ∀ j, (j < Z.to_nat r)%nat → fl !! j = Some true).
Proof.
  intros Hlen.
  destruct (thr_slot_loop_spec (Z.to_nat THR_MAX_ACTIVE) 0 fl)
    as (r & Hr & Hcase); [lia | by rewrite Hlen |].
  exists r. split; [exact Hr|].
  destruct Hcase as [[-> Hall]|(Hr1 & Hr2 & Hall)].
  - split; [|done]. split; [|done]. intros _ j b Hj.
    assert (Hlt : (j < length fl)%nat) by (by eapply lookup_lt_Some).
    rewrite Hall in Hj by lia. congruence.
  - split.
    + split; [lia|]. intros H. specialize (H _ _ Hr2). discriminate H.
    + intros _. split; [unfold THR_MAX_ACTIVE in *; lia|]. split; [done|].
      intros j Hj. apply Hall. lia.
Qed.

Lemma get_thr_slot_first_free_witness :
  ∃ r, get_thr_slot [true; true; false; true] = Some r ∧ r = 2.
Proof.
  destruct (get_thr_slot_first_free [true; true; false; true] eq_refl)
    as (r & Hr & _ & _).
  exists r. split; [exact Hr|]. by injection Hr as <-.
Defined.



(** X5: [flush_pixels] writes its colour to every element of the raster: the
    array keeps its size, every pixel of the raster then reads as that
    colour, and a second reset makes the first one unobservable. *)
Theorem flush_pixels_sets_raster (c : pixel) (buf : list pixel) :
  length buf = Z.to_nat (WIDTH * HEIGHT) →
  flush_pixels c buf = replicate (Z.to_nat (WIDTH * HEIGHT)) c
  ∧ length (flush_pixels c buf) = length buf
  ∧ (∀ x y, 0 <= x < WIDTH → 0 <= y < HEIGHT →
            pixel_at (flush_pixels c buf) x y = Some c)
  ∧ ∀ c', flush_pixels c' (flush_pixels c buf) = flush_pixels c' buf.
Proof.
  intros Hlen.
  split; [by apply flush_pixels_replicate|].
  split; [apply length_flush_pixels|].
  split; [intros x y Hx Hy; by apply pixel_at_flush|].
  intros c'. rewrite !flush_pixels_replicate; try done.
  by rewrite length_flush_pixels.
Qed.

Lemma flush_pixels_sets_raster_witness :
  pixel_at (flush_pixels pix_white (pixbuf initial_engine)) 1365 767 = Some pix_white.
Proof.
  destruct (flush_pixels_sets_raster pix_white (pixbuf initial_engine)
              (length_replicate _ _)) as (_ & _ & H & _).
  apply H; unfold WIDTH, HEIGHT; lia.
Defined.

(** ** The rounding of the MPFR operations *)

Lemma pow2_pos_Q (e : Z) : (0 < 2 ^ e)%Q.
Proof. apply Qpower_0_lt. reflexivity. Qed.

(** At one exponent the order of the values is the order of the
    mantissas. *)
Lemma to_Q_le_same (a b e : Z) : (to_Q (Dy a e) <= to_Q (Dy b e))%Q ↔ a <= b.
Proof.
  unfold to_Q. cbn [mant expo].
  rewrite (Qmult_le_r _ _ _ (pow2_pos_Q e)). by rewrite <- Zle_Qle.
Qed.

Lemma to_Q_scale (m e g : Z) :
  g <= e → (to_Q (Dy m e) == to_Q (Dy (m * 2 ^ (e - g)) g))%Q.
Proof.
  intros H. pose proof (to_Q_shift m e (e - g) ltac:(lia)) as Hs.
  replace (e - (e - g)) with g in Hs by lia. by rewrite Hs.
Qed.

Lemma to_Q_ex_mul (x y : dyadic) : (to_Q (ex_mul x y) == to_Q x * to_Q y)%Q.
Proof.
  unfold to_Q, ex_mul. cbn [mant expo].
  rewrite inject_Z_mult, (Qpower_plus 2 _ _ two_neq_0). ring.
Qed.

(** The rounding never delivers more than the exact result. *)
Lemma rndd_le (x : dyadic) : (to_Q (rndd PBITS x) <= to_Q x)%Q.
Proof.
  unfold rndd. destruct (bitlen (mant x) - PBITS <=? 0) eqn:E; [apply Qle_refl|].
  apply Z.leb_gt in E. set (k := bitlen (mant x) - PBITS) in *.
  rewrite Z.shiftr_div_pow2 by lia.
  destruct x as [m e]. cbn [mant expo] in *.
  rewrite (to_Q_scale (m / 2 ^ k) (e + k) e) by lia.
  replace (e + k - e) with k by lia.
  apply to_Q_le_same. rewrite Z.mul_comm. apply Z.mul_div_le.
  apply Z.pow_pos_nonneg; lia.
Qed.

(** Flooring a mantissa of [p + k] bits to its [p] high bits does not go
    below a [p]-bit value that is not above it. *)
Lemma floor_greatest (p k m c a b : Z) :
  0 < p → 0 < k → 0 <= a → 0 <= b →
  - 2 ^ p <= c < 2 ^ p → bitlen m = p + k →
  c * 2 ^ a <= m * 2 ^ b →
  c * 2 ^ a <= m / 2 ^ k * 2 ^ (k + b).
Proof.
  intros Hp Hk Ha Hb Hc Hm Hle.
  assert (Hk2 : 0 < 2 ^ k) by (apply Z.pow_pos_nonneg; lia).
  assert (Hb2 : 0 < 2 ^ b) by (apply Z.pow_pos_nonneg; lia).
  assert (Ha2 : 0 < 2 ^ a) by (apply Z.pow_pos_nonneg; lia).
  rewrite (Z.pow_add_r 2 k b) by lia.
  destruct (Z_le_gt_dec (b + k) a) as [Hab|Hab].
  - remember (a - b - k) as d eqn:Hd.
    assert (Ea : a = d + k + b) by lia.
    assert (Hd0 : 0 <= d) by lia.
    assert (Hd2 : 0 < 2 ^ d) by (apply Z.pow_pos_nonneg; lia).
    rewrite Ea in Hle |- *. rewrite !Z.pow_add_r in Hle |- * by lia.
    clear Ha2.
    set (D := 2 ^ d) in *. set (K := 2 ^ k) in *. set (B := 2 ^ b) in *.
    assert (H1 : K * (c * D) <= m).
    { apply (Z.mul_le_mono_pos_r _ _ B); [lia|].
      replace (K * (c * D) * B) with (c * (D * K * B)) by ring. exact Hle. }
    apply Z.div_le_lower_bound in H1; [|lia].
    replace (c * (D * K * B)) with (c * D * (K * B)) by ring.
    apply Z.mul_le_mono_nonneg_r; [nia | exact H1].
  - assert (Hlow : ¬ (- 2 ^ (p + k - 1) <= m < 2 ^ (p + k - 1))).
    { intros H. apply (bitlen_le m (p + k - 1)) in H; lia. }
    assert (Hpow : 2 ^ (p + a) <= 2 ^ (p + k - 1 + b)) by (apply Z.pow_le_mono_r; lia).
    rewrite !Z.pow_add_r in Hpow by lia.
    assert (E : 2 ^ (p + k - 1) = 2 ^ k * 2 ^ (p - 1)).
    { rewrite <- Z.pow_add_r by lia. f_equal. lia. }
    assert (Hp2 : 0 < 2 ^ p) by (apply Z.pow_pos_nonneg; lia).
    assert (Hp1 : 0 < 2 ^ (p - 1)) by (apply Z.pow_pos_nonneg; lia).
    rewrite E in *.
    set (P := 2 ^ p) in *. set (P1 := 2 ^ (p - 1)) in *.
    set (A := 2 ^ a) in *. set (K := 2 ^ k) in *. set (B := 2 ^ b) in *.
    assert (H2 : c * A < P * A) by (apply Z.mul_lt_mono_pos_r; lia).
    assert (H3 : - (P * A) <= c * A).
    { replace (- (P * A)) with ((- P) * A) by ring.
      apply Z.mul_le_mono_nonneg_r; lia. }
    destruct (Z_le_gt_dec (K * P1) m) as [Hpos|Hneg].
    + assert (H1 : P1 <= m / K) by (apply Z.div_le_lower_bound; lia).
      assert (H4 : P1 * (K * B) <= m / K * (K * B)).
      { apply Z.mul_le_mono_nonneg_r; [nia | exact H1]. }
      replace (P1 * (K * B)) with (K * P1 * B) in H4 by ring. lia.
    + assert (H1 : m < - (K * P1)) by lia.
      assert (H4 : m * B < - (K * P1) * B) by (apply Z.mul_lt_mono_pos_r; lia).
      replace (- (K * P1) * B) with (- (K * P1 * B)) in H4 by ring. lia.
Qed.

(** The rounding delivers the greatest value of [PBITS] bits that is not
    above the exact result. *)
Lemma rndd_greatest (x z : dyadic) :
  fits z → (to_Q z <= to_Q x)%Q → (to_Q z <= to_Q (rndd PBITS x))%Q.
Proof.
  intros Hz Hle. unfold rndd.
  destruct (bitlen (mant x) - PBITS <=? 0) eqn:E; [exact Hle|].
  apply Z.leb_gt in E. set (k := bitlen (mant x) - PBITS) in *.
  destruct x as [m e], z as [c f]. unfold fits in Hz. cbn [mant expo] in *.
  pose (g := Z.min f e).
  rewrite (to_Q_scale c f g), (to_Q_scale m e g) in Hle by lia.
  apply to_Q_le_same in Hle.
  rewrite Z.shiftr_div_pow2 by lia.
  rewrite (to_Q_scale c f g), (to_Q_scale (m / 2 ^ k) (e + k) g) by lia.
  apply to_Q_le_same.
  replace (e + k - g) with (k + (e - g)) by lia.
  apply (floor_greatest PBITS); try lia; try done; exact PBITS_pos.
Qed.

Lemma rndd_mono (x y : dyadic) :
  (to_Q x <= to_Q y)%Q → (to_Q (rndd PBITS x) <= to_Q (rndd PBITS y))%Q.
Proof.
  intros H. apply rndd_greatest; [apply rndd_fits|].
  eapply Qle_trans; [apply rndd_le | exact H].
Qed.

(** An exact result that some value of [PBITS] bits equals is delivered
    unchanged in value. *)
Lemma rndd_same_value (x z : dyadic) :
  fits z → (to_Q x == to_Q z)%Q → (to_Q (rndd PBITS x) == to_Q z)%Q.
Proof.
  intros Hz He. apply Qle_antisym.
  - rewrite <- He. apply rndd_le.
  - apply rndd_greatest; [done|]. rewrite He. apply Qle_refl.
Qed.

Lemma fits_zero : fits (Dy 0 0).
Proof. unfold fits. cbn. unfold PBITS. lia. Qed.

Lemma rndd_nonneg (x : dyadic) : (0 <= to_Q x)%Q → (0 <= to_Q (rndd PBITS x))%Q.
Proof.
  intros H. change 0%Q with (to_Q (Dy 0 0)).
  apply rndd_greatest; [apply fits_zero | exact H].
Qed.

Lemma mpfr_add_mono (x y x' y' : dyadic) :
  (to_Q x + to_Q y <= to_Q x' + to_Q y')%Q →
  (to_Q (mpfr_add x y) <= to_Q (mpfr_add x' y'))%Q.
Proof. intros H. unfold mpfr_add. apply rndd_mono. by rewrite !to_Q_ex_add. Qed.

Lemma mpfr_sub_mono (x y x' y' : dyadic) :
  (to_Q x - to_Q y <= to_Q x' - to_Q y')%Q →
  (to_Q (mpfr_sub x y) <= to_Q (mpfr_sub x' y'))%Q.
Proof. intros H. unfold mpfr_sub. apply rndd_mono. by rewrite !to_Q_ex_sub. Qed.

Lemma mpfr_sub_le (x y : dyadic) : (to_Q (mpfr_sub x y) <= to_Q x - to_Q y)%Q.
Proof. unfold mpfr_sub. rewrite <- to_Q_ex_sub. apply rndd_le. Qed.

Lemma mpfr_add_le (x y : dyadic) : (to_Q (mpfr_add x y) <= to_Q x + to_Q y)%Q.
Proof. unfold mpfr_add. rewrite <- to_Q_ex_add. apply rndd_le. Qed.

Lemma mpfr_sub_nonneg (x y : dyadic) :
  (to_Q y <= to_Q x)%Q → (0 <= to_Q (mpfr_sub x y))%Q.
Proof.
  intros H. unfold mpfr_sub. apply rndd_nonneg. rewrite to_Q_ex_sub. lra.
Qed.

Lemma mpfr_add_same (x y z : dyadic) :
  fits z → (to_Q x + to_Q y == to_Q z)%Q → (to_Q (mpfr_add x y) == to_Q z)%Q.
Proof.
  intros Hz H. unfold mpfr_add. apply rndd_same_value; [done|]. by rewrite to_Q_ex_add.
Qed.

Lemma mpfr_sub_same (x y z : dyadic) :
  fits z → (to_Q x - to_Q y == to_Q z)%Q → (to_Q (mpfr_sub x y) == to_Q z)%Q.
Proof.
  intros Hz H. unfold mpfr_sub. apply rndd_same_value; [done|]. by rewrite to_Q_ex_sub.
Qed.

(** ** The viewport stays a rectangle *)

(** Division by the constants 2 and 4 as a multiplication, for [lra]. *)
Ltac by_halves :=
  unfold Qdiv in *;
  change (/ 2)%Q with (1 # 2)%Q in *; change (/ 4)%Q with (1 # 4)%Q in *;
  lra.

(** Half the width, as the handler computes it, is not negative and not
    more than half the exact width. *)
Lemma hdiff_range (b : bounds) :
  (to_Q (bound_left b) <= to_Q (bound_right b))%Q →
  (0 <= to_Q (hdiff_of b) <= width_Q b / 2)%Q.
Proof.
  intros H. unfold hdiff_of, width_Q.
  rewrite to_Q_div_2 by auto with fits.
  pose proof (mpfr_sub_nonneg _ _ H).
  pose proof (mpfr_sub_le (bound_right b) (bound_left b)). by_halves.
Qed.

Lemma vdiff_range (b : bounds) :
  (to_Q (bound_bottom b) <= to_Q (bound_top b))%Q →
  (0 <= to_Q (vdiff_of b) <= height_Q b / 2)%Q.
Proof.
  intros H. unfold vdiff_of, height_Q.
  rewrite to_Q_div_2 by auto with fits.
  pose proof (mpfr_sub_nonneg _ _ H).
  pose proof (mpfr_sub_le (bound_top b) (bound_bottom b)). by_halves.
Qed.

Lemma key_cases (key : Z) :
  key = GLFW_KEY_LEFT ∨ key = GLFW_KEY_RIGHT ∨ key = GLFW_KEY_UP
  ∨ key = GLFW_KEY_DOWN ∨ key = GLFW_KEY_SPACE
  ∨ (key ≠ GLFW_KEY_LEFT ∧ key ≠ GLFW_KEY_RIGHT ∧ key ≠ GLFW_KEY_UP
     ∧ key ≠ GLFW_KEY_DOWN ∧ key ≠ GLFW_KEY_SPACE).
Proof.
  unfold GLFW_KEY_LEFT, GLFW_KEY_RIGHT, GLFW_KEY_UP, GLFW_KEY_DOWN, GLFW_KEY_SPACE.
  lia.
Qed.

(** Whatever the key and however much the operations round, the handler
    never turns the viewport inside out. *)
Lemma next_bounds_ordered (key : Z) (b : bounds) :
  fits_bounds b → ordered b → ordered (next_bounds key b).
Proof.
  intros Hfit [Hh Hv].
  pose proof (hdiff_range b Hh) as Hhd. pose proof (vdiff_range b Hv) as Hvd.
  unfold width_Q, height_Q in *.
  destruct (key_cases key) as [->|[->|[->|[->|[->|(H1 & H2 & H3 & H4 & H5)]]]]].
  - rewrite next_bounds_left by done. split; [|exact Hv].
    cbn [bound_left bound_right]. apply mpfr_sub_mono. lra.
  - rewrite next_bounds_right by done. split; [|exact Hv].
    cbn [bound_left bound_right]. apply mpfr_add_mono. lra.
  - rewrite next_bounds_up by done. split; [exact Hh|].
    cbn [bound_top bound_bottom]. apply mpfr_add_mono. lra.
  - rewrite next_bounds_down by done. split; [exact Hh|].
    cbn [bound_top bound_bottom]. apply mpfr_sub_mono. lra.
  - rewrite next_bounds_space by done.
    assert (Hq : (to_Q (mpfr_div_d (hdiff_of b) d_2_0) == to_Q (hdiff_of b) / 2)%Q)
      by (apply to_Q_div_2; unfold hdiff_of; auto with fits).
    assert (Hw : (to_Q (mpfr_div_d (vdiff_of b) d_2_0) == to_Q (vdiff_of b) / 2)%Q)
      by (apply to_Q_div_2; unfold vdiff_of; auto with fits).
    split; cbn [bound_left bound_right bound_top bound_bottom];
      unfold mpfr_add, mpfr_sub; apply rndd_mono;
      rewrite to_Q_ex_add, to_Q_ex_sub; [rewrite Hq | rewrite Hw]; by_halves.
  - by rewrite next_bounds_other.
Qed.

(** Only the first section of the key handler writes the bounds. *)
Lemma exec_bnd (a : action) (ok : bool) (st : engine) :
  bnd (exec a ok st) =
  match a with A_bounds key => next_bounds key (bnd st) | _ => bnd st end.
Proof.
  destruct a as [key|c|i|i|i|l|i|code]; cbn [exec]; try reflexivity.
  - unfold cancel_slot. by destruct (live_threads st !! Z.to_nat i) as [[|]|].
  - by destruct ok.
  - by destruct (live_threads st !! Z.to_nat i) as [[|]|].
Qed.

Lemma step_bnd (st st' : engine) :
  step st st' → bnd st' = bnd st ∨ ∃ key, bnd st' = next_bounds key (bnd st).
Proof.
  intros [st0 a rest ok Hne Hp|st0 key act Hne Hp|st0 Hne Hp|st0 i st1 Hne Hs].
  - rewrite exec_bnd. destruct a; try (by left). right. by eexists.
  - by left.
  - by left.
  - left. by destruct (thread_step_cases i st0 st1 Hs) as (_ & _ & Hb & _).
Qed.

(** X6: In every state the program reaches the viewport is a rectangle, with
    [bound_left <= bound_right] and [bound_bottom <= bound_top], however
    often the keys were pressed and however much the 128-bit operations
    have rounded; zooming can make it degenerate, but never inverts it. *)
Theorem viewport_stays_ordered (st : engine) :
  reachable st → ordered (bnd st).
Proof.
  unfold reachable. intros H.
  eapply (rtc_ind_r (λ s, ordered (bnd s))); [| |exact H].
  - split; vm_compute; discriminate.
  - intros y z Hy Hs IH.
    destruct (step_bnd y z Hs) as [->|[key ->]]; [exact IH|].
    apply next_bounds_ordered; [|exact IH].
    exact (inv_fits y (reachable_inv y Hy)).
Qed.

Lemma viewport_stays_ordered_witness :
  ordered (bnd (run_main 1 (λ _, true)
                  (with_pending (key_callback GLFW_KEY_SPACE GLFW_PRESS) started))).
Proof.
  apply viewport_stays_ordered.
  apply run_main_reachable. eapply rtc_r; [exact started_reachable|].
  by apply step_key.
Defined.

(** ** How the pans compose *)

(** X7: A horizontal and a vertical pan commute, bit for bit: either order
    gives the same four bounds, whether or not the operations round. *)
Theorem pans_commute (b : bounds) :
  fits_bounds b →
  next_bounds GLFW_KEY_UP (next_bounds GLFW_KEY_LEFT b)
  = next_bounds GLFW_KEY_LEFT (next_bounds GLFW_KEY_UP b)
  ∧ next_bounds GLFW_KEY_DOWN (next_bounds GLFW_KEY_LEFT b)
    = next_bounds GLFW_KEY_LEFT (next_bounds GLFW_KEY_DOWN b)
  ∧ next_bounds GLFW_KEY_UP (next_bounds GLFW_KEY_RIGHT b)
    = next_bounds GLFW_KEY_RIGHT (next_bounds GLFW_KEY_UP b)
  ∧ next_bounds GLFW_KEY_DOWN (next_bounds GLFW_KEY_RIGHT b)
    = next_bounds GLFW_KEY_RIGHT (next_bounds GLFW_KEY_DOWN b).
Proof.
  intros Hfit.
  pose proof (next_bounds_fits b GLFW_KEY_LEFT) as FL.
  pose proof (next_bounds_fits b GLFW_KEY_RIGHT) as FR.
  pose proof (next_bounds_fits b GLFW_KEY_UP) as FU.
  pose proof (next_bounds_fits b GLFW_KEY_DOWN) as FD.
  split; [|split; [|split]].
  - rewrite (next_bounds_up _ FL), (next_bounds_left _ FU).
    rewrite (next_bounds_left b Hfit), (next_bounds_up b Hfit).
    unfold hdiff_of, vdiff_of. cbn [bound_left bound_right bound_top bound_bottom].
    reflexivity.
  - rewrite (next_bounds_down _ FL), (next_bounds_left _ FD).
    rewrite (next_bounds_left b Hfit), (next_bounds_down b Hfit).
    unfold hdiff_of, vdiff_of. cbn [bound_left bound_right bound_top bound_bottom].
    reflexivity.
  - rewrite (next_bounds_up _ FR), (next_bounds_right _ FU).
    rewrite (next_bounds_right b Hfit), (next_bounds_up b Hfit).
    unfold hdiff_of, vdiff_of. cbn [bound_left bound_right bound_top bound_bottom].
    reflexivity.
  - rewrite (next_bounds_down _ FR), (next_bounds_right _ FD).
    rewrite (next_bounds_right b Hfit), (next_bounds_down b Hfit).
    unfold hdiff_of, vdiff_of. cbn [bound_left bound_right bound_top bound_bottom].
    reflexivity.
Qed.

Lemma pans_commute_witness :
  next_bounds GLFW_KEY_UP (next_bounds GLFW_KEY_LEFT initial_bounds)
  = next_bounds GLFW_KEY_LEFT (next_bounds GLFW_KEY_UP initial_bounds).
Proof. exact (proj1 (pans_commute initial_bounds initial_bounds_fits)). Defined.

(** Half the width of a viewport that is another one shifted sideways,
    when the width of that other one is computed without rounding. *)
Lemma hdiff_after_shift (b b1 : bounds) (d : Q) :
  lossless (ex_sub (bound_right b) (bound_left b)) = true →
  (to_Q (bound_left b1) == to_Q (bound_left b) + d)%Q →
  (to_Q (bound_right b1) == to_Q (bound_right b) + d)%Q →
  (to_Q (hdiff_of b1) == to_Q (hdiff_of b))%Q.
Proof.
  intros Hex Hl Hr. unfold hdiff_of.
  rewrite !to_Q_div_2 by auto with fits.
  rewrite (mpfr_sub_same (bound_right b1) (bound_left b1)
             (mpfr_sub (bound_right b) (bound_left b))); [reflexivity|auto with fits|].
  rewrite (to_Q_mpfr_sub _ _ Hex), Hl, Hr. ring.
Qed.

Lemma vdiff_after_shift (b b1 : bounds) (d : Q) :
  lossless (ex_sub (bound_top b) (bound_bottom b)) = true →
  (to_Q (bound_top b1) == to_Q (bound_top b) + d)%Q →
  (to_Q (bound_bottom b1) == to_Q (bound_bottom b) + d)%Q →
  (to_Q (vdiff_of b1) == to_Q (vdiff_of b))%Q.
Proof.
  intros Hex Ht Hb. unfold vdiff_of.
  rewrite !to_Q_div_2 by auto with fits.
  rewrite (mpfr_sub_same (bound_top b1) (bound_bottom b1)
             (mpfr_sub (bound_top b) (bound_bottom b))); [reflexivity|auto with fits|].
  rewrite (to_Q_mpfr_sub _ _ Hex), Ht, Hb. ring.
Qed.

(** X8: A pan that did not round is undone by the opposite pan: the second
    pan finds the same half width (or half height) and its two results
    are the old bounds, which 128 bits hold, so it does not round
    either. *)
Theorem pan_round_trip (b : bounds) :
  fits_bounds b →
  (key_exact GLFW_KEY_LEFT b = true →
   same_view (next_bounds GLFW_KEY_RIGHT (next_bounds GLFW_KEY_LEFT b)) b)
  ∧ (key_exact GLFW_KEY_RIGHT b = true →
     same_view (next_bounds GLFW_KEY_LEFT (next_bounds GLFW_KEY_RIGHT b)) b)
  ∧ (key_exact GLFW_KEY_UP b = true →
     same_view (next_bounds GLFW_KEY_DOWN (next_bounds GLFW_KEY_UP b)) b)
  ∧ (key_exact GLFW_KEY_DOWN b = true →
     same_view (next_bounds GLFW_KEY_UP (next_bounds GLFW_KEY_DOWN b)) b).
Proof.
  intros Hfit. pose proof Hfit as (Fl & Fr & Ft & Fb).
  split; [|split; [|split]]; intros Hex; split_exact Hex.
  - pose proof (next_bounds_fits b GLFW_KEY_LEFT) as F1.
    rewrite (next_bounds_right _ F1).
    set (b1 := next_bounds GLFW_KEY_LEFT b) in *.
    assert (E1 : b1 = Bounds (mpfr_sub (bound_left b) (hdiff_of b))
                             (mpfr_sub (bound_right b) (hdiff_of b))
                             (bound_top b) (bound_bottom b))
      by (by apply next_bounds_left).
    assert (Hl : (to_Q (bound_left b1) == to_Q (bound_left b) + - to_Q (hdiff_of b))%Q).
    { rewrite E1. cbn [bound_left]. rewrite to_Q_mpfr_sub by assumption. ring. }
    assert (Hr : (to_Q (bound_right b1) == to_Q (bound_right b) + - to_Q (hdiff_of b))%Q).
    { rewrite E1. cbn [bound_right]. rewrite to_Q_mpfr_sub by assumption. ring. }
    pose proof (hdiff_after_shift b b1 _ ltac:(assumption) Hl Hr) as Hh.
    unfold same_view. cbn [bound_left bound_right bound_top bound_bottom].
    split; [apply mpfr_add_same; [done|]; rewrite Hl, Hh; ring|].
    split; [apply mpfr_add_same; [done|]; rewrite Hr, Hh; ring|].
    rewrite E1. cbn [bound_top bound_bottom]. split; reflexivity.
  - pose proof (next_bounds_fits b GLFW_KEY_RIGHT) as F1.
    rewrite (next_bounds_left _ F1).
    set (b1 := next_bounds GLFW_KEY_RIGHT b) in *.
    assert (E1 : b1 = Bounds (mpfr_add (bound_left b) (hdiff_of b))
                             (mpfr_add (bound_right b) (hdiff_of b))
                             (bound_top b) (bound_bottom b))
      by (by apply next_bounds_right).
    assert (Hl : (to_Q (bound_left b1) == to_Q (bound_left b) + to_Q (hdiff_of b))%Q).
    { rewrite E1. cbn [bound_left]. by rewrite to_Q_mpfr_add by assumption. }
    assert (Hr : (to_Q (bound_right b1) == to_Q (bound_right b) + to_Q (hdiff_of b))%Q).
    { rewrite E1. cbn [bound_right]. by rewrite to_Q_mpfr_add by assumption. }
    pose proof (hdiff_after_shift b b1 _ ltac:(assumption) Hl Hr) as Hh.
    unfold same_view. cbn [bound_left bound_right bound_top bound_bottom].
    split; [apply mpfr_sub_same; [done|]; rewrite Hl, Hh; ring|].
    split; [apply mpfr_sub_same; [done|]; rewrite Hr, Hh; ring|].
    rewrite E1. cbn [bound_top bound_bottom]. split; reflexivity.
  - pose proof (next_bounds_fits b GLFW_KEY_UP) as F1.
    rewrite (next_bounds_down _ F1).
    set (b1 := next_bounds GLFW_KEY_UP b) in *.
    assert (E1 : b1 = Bounds (bound_left b) (bound_right b)
                             (mpfr_add (bound_top b) (vdiff_of b))
                             (mpfr_add (bound_bottom b) (vdiff_of b)))
      by (by apply next_bounds_up).
    assert (Ht : (to_Q (bound_top b1) == to_Q (bound_top b) + to_Q (vdiff_of b))%Q).
    { rewrite E1. cbn [bound_top]. by rewrite to_Q_mpfr_add by assumption. }
    assert (Hb : (to_Q (bound_bottom b1) == to_Q (bound_bottom b) + to_Q (vdiff_of b))%Q).
    { rewrite E1. cbn [bound_bottom]. by rewrite to_Q_mpfr_add by assumption. }
    pose proof (vdiff_after_shift b b1 _ ltac:(assumption) Ht Hb) as Hv.
    unfold same_view. cbn [bound_left bound_right bound_top bound_bottom].
    rewrite E1 at 1 2. cbn [bound_left bound_right].
    split; [reflexivity|]. split; [reflexivity|].
    split; [apply mpfr_sub_same; [done|]; rewrite Ht, Hv; ring|].
    apply mpfr_sub_same; [done|]; rewrite Hb, Hv; ring.
  - pose proof (next_bounds_fits b GLFW_KEY_DOWN) as F1.
    rewrite (next_bounds_up _ F1).
    set (b1 := next_bounds GLFW_KEY_DOWN b) in *.
    assert (E1 : b1 = Bounds (bound_left b) (bound_right b)
                             (mpfr_sub (bound_top b) (vdiff_of b))
                             (mpfr_sub (bound_bottom b) (vdiff_of b)))
      by (by apply next_bounds_down).
    assert (Ht : (to_Q (bound_top b1) == to_Q (bound_top b) + - to_Q (vdiff_of b))%Q).
    { rewrite E1. cbn [bound_top]. rewrite to_Q_mpfr_sub by assumption. ring. }
    assert (Hb : (to_Q (bound_bottom b1) == to_Q (bound_bottom b) + - to_Q (vdiff_of b))%Q).
    { rewrite E1. cbn [bound_bottom]. rewrite to_Q_mpfr_sub by assumption. ring. }
    pose proof (vdiff_after_shift b b1 _ ltac:(assumption) Ht Hb) as Hv.
    unfold same_view. cbn [bound_left bound_right bound_top bound_bottom].
    rewrite E1 at 1 2. cbn [bound_left bound_right].
    split; [reflexivity|]. split; [reflexivity|].
    split; [apply mpfr_add_same; [done|]; rewrite Ht, Hv; ring|].
    apply mpfr_add_same; [done|]; rewrite Hb, Hv; ring.
Qed.

Lemma pan_round_trip_witness :
  same_view (next_bounds GLFW_KEY_RIGHT (next_bounds GLFW_KEY_LEFT initial_bounds))
            initial_bounds.
Proof.
  apply (pan_round_trip initial_bounds initial_bounds_fits).
  vm_compute. reflexivity.
Defined.

(** ** From pixels to points of the plane *)

(** The quotients [x / (WIDTH - 1)] and [y / (HEIGHT - 1)] of doubles,
    evaluated for every column and every row: none is negative and each
    is at most its successor. *)
Lemma col_frac_check :
  forallb (λ x, Qle_bool 0 (to_Q (col_frac x))
                && Qle_bool (to_Q (col_frac x)) (to_Q (col_frac (x + 1))))
          (seqZ 0 (WIDTH - 1)) = true.
Proof. vm_compute. reflexivity. Qed.

Lemma row_frac_check :
  forallb (λ y, Qle_bool 0 (to_Q (row_frac y))
                && Qle_bool (to_Q (row_frac y)) (to_Q (row_frac (y + 1))))
          (seqZ 0 (HEIGHT - 1)) = true.
Proof. vm_compute. reflexivity. Qed.

(** A sequence that does not fall from one index to the next does not
    fall at all. *)
Lemma steps_monotone (f : Z → Q) (n : Z) :
  (∀ x, 0 <= x < n - 1 → (f x <= f (x + 1)%Z)%Q) →
  ∀ x x', 0 <= x <= x' → x' < n → (f x <= f x')%Q.
Proof.
  intros Hstep x x' Hx Hx'.
  assert (H : ∀ d : nat, x + Z.of_nat d < n → (f x <= f (x + Z.of_nat d)%Z)%Q).
  { induction d as [|d IH]; intros Hd.
    - replace (x + Z.of_nat 0) with x by lia. apply Qle_refl.
    - eapply Qle_trans; [apply IH; lia|].
      replace (x + Z.of_nat (S d)) with (x + Z.of_nat d + 1) by lia.
      apply Hstep. lia. }
  replace x' with (x + Z.of_nat (Z.to_nat (x' - x))) by lia. apply H. lia.
Qed.

Lemma frac_facts (f : Z → dyadic) (n : Z) :
  1 < n →
  forallb (λ x, Qle_bool 0 (to_Q (f x))
                && Qle_bool (to_Q (f x)) (to_Q (f (x + 1))))
          (seqZ 0 (n - 1)) = true →
  ∀ x x', 0 <= x <= x' → x' < n →
          (0 <= to_Q (f x))%Q ∧ (to_Q (f x) <= to_Q (f x'))%Q.
Proof.
  intros Hn Hall.
  assert (Hstep : ∀ x, 0 <= x < n - 1 →
                       (0 <= to_Q (f x))%Q ∧ (to_Q (f x) <= to_Q (f (x + 1)%Z))%Q).
  { intros x Hx.
    pose proof (proj1 (forallb_forall _ _) Hall x) as H.
    destruct (andb_prop _ _ (H ltac:(apply list_elem_of_In, elem_of_seqZ; lia)))
      as [H1 H2].
    split; by apply Qle_bool_iff. }
  intros x x' Hx Hx'.
  split.
  - destruct (decide (x < n - 1)) as [Hlt|Hge]; [exact (proj1 (Hstep x ltac:(lia)))|].
    assert (x = n - 1) by lia. subst x.
    destruct (Hstep (n - 1 - 1) ltac:(lia)) as [H0 H1].
    replace (n - 1 - 1 + 1) with (n - 1) in H1 by lia. lra.
  - apply (steps_monotone (λ x, to_Q (f x)) n); [|done|done].
    intros z Hz. exact (proj2 (Hstep z Hz)).
Qed.

(** The map from a pixel coordinate to a coordinate of the plane,
    [lo + (hi - lo) * f], as the three MPFR calls compute it. *)
Lemma affine_range (lo hi f : dyadic) :
  fits lo → (to_Q lo <= to_Q hi)%Q → (0 <= to_Q f <= 1)%Q →
  (to_Q lo <= to_Q (mpfr_add (mpfr_mul_d (mpfr_sub hi lo) f) lo) <= to_Q hi)%Q.
Proof.
  intros Hlo Hle [Hf0 Hf1].
  pose proof (mpfr_sub_nonneg hi lo Hle) as Hw0.
  pose proof (mpfr_sub_le hi lo) as Hw1.
  set (w := mpfr_sub hi lo) in *.
  assert (Hp0 : (0 <= to_Q (mpfr_mul_d w f))%Q).
  { unfold mpfr_mul_d. apply rndd_nonneg. rewrite to_Q_ex_mul.
    by apply Qmult_le_0_compat. }
  assert (Hp1 : (to_Q (mpfr_mul_d w f) <= to_Q w)%Q).
  { unfold mpfr_mul_d. eapply Qle_trans; [apply rndd_le|]. rewrite to_Q_ex_mul.
    rewrite <- (Qmult_1_r (to_Q w)) at 2. rewrite !(Qmult_comm (to_Q w)).
    by apply Qmult_le_compat_r. }
  split.
  - unfold mpfr_add. apply rndd_greatest; [done|]. rewrite to_Q_ex_add. lra.
  - eapply Qle_trans; [apply mpfr_add_le|]. lra.
Qed.

Lemma affine_mono (lo hi f f' : dyadic) :
  (to_Q lo <= to_Q hi)%Q → (to_Q f <= to_Q f')%Q →
  (to_Q (mpfr_add (mpfr_mul_d (mpfr_sub hi lo) f) lo)
   <= to_Q (mpfr_add (mpfr_mul_d (mpfr_sub hi lo) f') lo))%Q.
Proof.
  intros Hle Hf.
  pose proof (mpfr_sub_nonneg hi lo Hle) as Hw0.
  apply mpfr_add_mono. apply Qplus_le_compat; [|apply Qle_refl].
  unfold mpfr_mul_d. apply rndd_mono. rewrite !to_Q_ex_mul.
  rewrite !(Qmult_comm (to_Q (mpfr_sub hi lo))). by apply Qmult_le_compat_r.
Qed.

Lemma affine_at_0 (lo hi f : dyadic) :
  fits lo → (to_Q f == 0)%Q →
  (to_Q (mpfr_add (mpfr_mul_d (mpfr_sub hi lo) f) lo) == to_Q lo)%Q.
Proof.
  intros Hlo Hf. apply mpfr_add_same; [done|].
  unfold mpfr_mul_d.
  rewrite (rndd_same_value _ (Dy 0 0) fits_zero).
  - change (to_Q (Dy 0 0)) with 0%Q. ring.
  - rewrite to_Q_ex_mul, Hf. change (to_Q (Dy 0 0)) with 0%Q. ring.
Qed.

Lemma affine_at_1 (lo hi f : dyadic) :
  fits hi → lossless (ex_sub hi lo) = true → (to_Q f == 1)%Q →
  (to_Q (mpfr_add (mpfr_mul_d (mpfr_sub hi lo) f) lo) == to_Q hi)%Q.
Proof.
  intros Hhi Hex Hf. apply mpfr_add_same; [done|].
  unfold mpfr_mul_d.
  rewrite (rndd_same_value _ (mpfr_sub hi lo) (mpfr_sub_fits hi lo)).
  - rewrite (to_Q_mpfr_sub _ _ Hex). ring.
  - rewrite to_Q_ex_mul, Hf. ring.
Qed.

Lemma col_frac_range (x x' : Z) :
  0 <= x <= x' → x' < WIDTH →
  (0 <= to_Q (col_frac x) <= 1)%Q ∧ (to_Q (col_frac x) <= to_Q (col_frac x'))%Q.
Proof.
  intros Hx Hx'.
  destruct (frac_facts col_frac WIDTH eq_refl col_frac_check x x' Hx Hx') as [H0 H1].
  destruct (frac_facts col_frac WIDTH eq_refl col_frac_check x (WIDTH - 1))
    as [_ H2]; [unfold WIDTH in *; lia | unfold WIDTH; lia |].
  split; [|exact H1]. split; [exact H0|].
  eapply Qle_trans; [exact H2|]. vm_compute. discriminate.
Qed.

Lemma row_frac_range (y y' : Z) :
  0 <= y <= y' → y' < HEIGHT →
  (0 <= to_Q (row_frac y) <= 1)%Q ∧ (to_Q (row_frac y) <= to_Q (row_frac y'))%Q.
Proof.
  intros Hy Hy'.
  destruct (frac_facts row_frac HEIGHT eq_refl row_frac_check y y' Hy Hy') as [H0 H1].
  destruct (frac_facts row_frac HEIGHT eq_refl row_frac_check y (HEIGHT - 1))
    as [_ H2]; [unfold HEIGHT in *; lia | unfold HEIGHT; lia |].
  split; [|exact H1]. split; [exact H0|].
  eapply Qle_trans; [exact H2|]. vm_compute. discriminate.
Qed.

Lemma pixel_point_eq (b : bounds) (x y : Z) :
  pixel_point b x y =
  Img (mpfr_add (mpfr_mul_d (mpfr_sub (bound_right b) (bound_left b)) (col_frac x))
                (bound_left b))
      (mpfr_add (mpfr_mul_d (mpfr_sub (bound_top b) (bound_bottom b)) (row_frac y))
                (bound_bottom b)).
Proof. reflexivity. Qed.

(** X9: Every pixel of the raster is given a point inside the viewport: the
    rounding of the three MPFR calls and of the division of doubles never
    takes the real part outside [bound_left, bound_right] or the
    imaginary part outside [bound_bottom, bound_top]. *)
Theorem pixel_point_in_viewport (b : bounds) (x y : Z) :
  fits_bounds b → ordered b → 0 <= x < WIDTH → 0 <= y < HEIGHT →
  (to_Q (bound_left b) <= to_Q (img_r (pixel_point b x y)) <= to_Q (bound_right b))%Q
  ∧ (to_Q (bound_bottom b) <= to_Q (img_i (pixel_point b x y)) <= to_Q (bound_top b))%Q.
Proof.
  intros (Fl & Fr & Ft & Fb) [Hh Hv] Hx Hy.
  rewrite pixel_point_eq. cbn [img_r img_i].
  split; apply affine_range; try done.
  - exact (proj1 (col_frac_range x x ltac:(lia) ltac:(lia))).
  - exact (proj1 (row_frac_range y y ltac:(lia) ltac:(lia))).
Qed.

Lemma pixel_point_in_viewport_witness :
  (to_Q (bound_left initial_bounds)
   <= to_Q (img_r (pixel_point initial_bounds 683 384))
   <= to_Q (bound_right initial_bounds))%Q.
Proof.
  assert (Ho : ordered initial_bounds) by (split; vm_compute; discriminate).
  apply (pixel_point_in_viewport initial_bounds 683 384 initial_bounds_fits Ho);
    unfold WIDTH, HEIGHT; lia.
Defined.

(** X10: The map keeps the order of the pixels: a column further right never
    gets a smaller real part, a row with a larger index never a smaller
    imaginary part (row 0 is the bottom of the viewport); and the real
    part depends on the column only, the imaginary part on the row only. *)
Theorem pixel_point_monotone (b : bounds) (x x' y y' : Z) :
  ordered b → 0 <= x <= x' → x' < WIDTH → 0 <= y <= y' → y' < HEIGHT →
  (to_Q (img_r (pixel_point b x y)) <= to_Q (img_r (pixel_point b x' y')))%Q
  ∧ (to_Q (img_i (pixel_point b x y)) <= to_Q (img_i (pixel_point b x' y')))%Q
  ∧ img_r (pixel_point b x y) = img_r (pixel_point b x y')
  ∧ img_i (pixel_point b x y) = img_i (pixel_point b x' y).
Proof.
  intros [Hh Hv] Hx Hx' Hy Hy'.
  rewrite !pixel_point_eq. cbn [img_r img_i].
  split; [|split; [|split; reflexivity]].
  - apply affine_mono; [done|]. exact (proj2 (col_frac_range x x' Hx Hx')).
  - apply affine_mono; [done|]. exact (proj2 (row_frac_range y y' Hy Hy')).
Qed.

Lemma pixel_point_monotone_witness :
  (to_Q (img_r (pixel_point initial_bounds 10 700))
   <= to_Q (img_r (pixel_point initial_bounds 1365 767)))%Q.
Proof.
  assert (Ho : ordered initial_bounds) by (split; vm_compute; discriminate).
  apply (pixel_point_monotone initial_bounds 10 1365 700 767 Ho);
    unfold WIDTH, HEIGHT; lia.
Defined.

(** X11: The corners: pixel (0, 0) is given exactly the point
    (bound_left, bound_bottom); the last column is given exactly
    [bound_right] and the last row exactly [bound_top] when the width and
    the height of the viewport are computed without rounding. *)
Theorem pixel_point_corners (b : bounds) (x y : Z) :
  fits_bounds b →
  (to_Q (img_r (pixel_point b 0 y)) == to_Q (bound_left b))%Q
  ∧ (to_Q (img_i (pixel_point b x 0)) == to_Q (bound_bottom b))%Q
  ∧ (lossless (ex_sub (bound_right b) (bound_left b)) = true →
     (to_Q (img_r (pixel_point b (WIDTH - 1) y)) == to_Q (bound_right b))%Q)
  ∧ (lossless (ex_sub (bound_top b) (bound_bottom b)) = true →
     (to_Q (img_i (pixel_point b x (HEIGHT - 1))) == to_Q (bound_top b))%Q).
Proof.
  intros (Fl & Fr & Ft & Fb).
  rewrite !pixel_point_eq. cbn [img_r img_i].
  split; [|split; [|split]].
  - by apply affine_at_0.
  - by apply affine_at_0.
  - intros Hex. by apply affine_at_1.
  - intros Hex. by apply affine_at_1.
Qed.

Lemma pixel_point_corners_witness :
  (to_Q (img_r (pixel_point initial_bounds 0 0)) == to_Q (bound_left initial_bounds))%Q
  ∧ (to_Q (img_i (pixel_point initial_bounds 0 0)) == to_Q (bound_bottom initial_bounds))%Q.
Proof.
  destruct (pixel_point_corners initial_bounds 0 0 initial_bounds_fits)
    as (H1 & H2 & _).
  split; [exact H1 | exact H2].
Defined.

(** ** What a compute thread touches *)

Lemma pixel_index_inj (x y x' y' : Z) :
  0 <= x < WIDTH → 0 <= x' < WIDTH →
  pixel_index x y = pixel_index x' y' → x = x' ∧ y = y'.
Proof. unfold pixel_index, WIDTH. lia. Qed.

(** A write at a pixel leaves every other pixel of the raster alone. *)
Lemma pixel_at_insert_ne (buf : list pixel) (c : pixel) (x y x' y' : Z) :
  0 <= x < WIDTH → 0 <= x' < WIDTH → (x, y) ≠ (x', y') → 0 <= pixel_index x y →
  pixel_at (<[Z.to_nat (pixel_index x y) := c]> buf) x' y' = pixel_at buf x' y'.
Proof.
  intros Hx Hx' Hne Hi. unfold pixel_at.
  destruct (pixel_index x' y' <? 0) eqn:E; [done|].
  apply Z.ltb_ge in E. apply list_lookup_insert_ne. intros Heq.
  destruct (pixel_index_inj x y x' y' Hx Hx' ltac:(lia)) as [-> ->]. done.
Qed.

Lemma pixel_iterations_range (b : bounds) (x y : Z) :
  1 <= pixel_iterations b x y <= MBR_MAX_ITERATIONS.
Proof.
  unfold pixel_iterations.
  pose proof (mbr_iterate_nonzero (pixel_point b x y)) as Hnz.
  revert Hnz. unfold mbr_iterate.
  pose proof (mbr_loop_range (pixel_point b x y) (Z.to_nat MBR_MAX_ITERATIONS) 0 cur_init) as Hr.
  rewrite max_iterations_Z in Hr. revert Hr.
  generalize (mbr_loop (Z.to_nat MBR_MAX_ITERATIONS) 0 (pixel_point b x y) cur_init).
  intros [i d]. cbn [fst]. lia.
Qed.



(** What one atomic section of a compute thread does to the raster. *)
Lemma thread_step_frame (st st' : engine) (i : nat) :
  engine_inv st → thread_step i st = Some st' →
  pixbuf st' = pixbuf st
  ∨ ∃ x y n,
      p_left (slot_params (Z.of_nat i)) <= x <= p_right (slot_params (Z.of_nat i))
      ∧ 0 <= x < WIDTH ∧ 0 <= y < HEIGHT
      ∧ 1 <= n <= MBR_MAX_ITERATIONS
      ∧ pixel_at (pixbuf st) x y = Some pix_white
      ∧ pixel_at (pixbuf st') x y = Some (get_color n)
      ∧ get_color n ≠ pix_white
      ∧ length (pixbuf st') = length (pixbuf st)
      ∧ ∀ x' y', 0 <= x' < WIDTH → (x', y') ≠ (x, y) →
                 pixel_at (pixbuf st') x' y' = pixel_at (pixbuf st) x' y'.
Proof.
  intros Hst Hs.
  pose proof (inv_pool st Hst) as (_ & Hts & _ & Hthr).
  pose proof (inv_pixbuf_len st Hst) as Hlen.
  destruct (thread_step_cases i st st' Hs) as (t & Ht & _ & _ & _ & Hcase).
  destruct (Hthr i t Ht) as [_ Hok].
  assert (Hi : (i < Z.to_nat THR_MAX_ACTIVE)%nat).
  { rewrite <- Hts. by eapply lookup_lt_Some. }
  destruct Hcase as [(t' & _ & _ & _ & _ & Hpix)|(p & _ & _ & Hpix & _)];
    [|by left].
  destruct Hpix as [Hpix|(p & x & y & -> & Hx & Hw & Hpix)]; [by left|].
  right. destruct Hok as [Hp [Hl Hb]]. cbn [thread_params] in Hp. subst p.
  destruct (slot_params_columns i Hi) as (Hc1 & Hc2 & Hc3).
  assert (Hb0 : 0 <= y) by (unfold slot_params in Hb; cbn [p_bottom] in Hb; lia).
  assert (Hidx : 0 <= pixel_index x y < WIDTH * HEIGHT).
  { pose proof Hw as Hw'. unfold pixel_at in Hw'.
    destruct (pixel_index x y <? 0) eqn:E; [done|]. apply Z.ltb_ge in E.
    apply lookup_lt_Some in Hw'. rewrite Hlen in Hw'. lia. }
  assert (Hy : y < HEIGHT) by (unfold pixel_index, WIDTH, HEIGHT in *; lia).
  exists x, y, (pixel_iterations (bnd st) x y).
  split; [lia|]. split; [lia|]. split; [lia|].
  split; [apply pixel_iterations_range|]. split; [exact Hw|].
  split.
  { rewrite Hpix. unfold pixel_at.
    destruct (pixel_index x y <? 0) eqn:E; [lia|].
    apply list_lookup_insert_eq. rewrite Hlen. lia. }
  split.
  { intros Hc. pose proof (get_color_alpha (pixel_iterations (bnd st) x y)) as Ha.
    rewrite Hc in Ha. discriminate Ha. }
  split; [by rewrite Hpix, length_insert|].
  intros x' y' Hx' Hne. rewrite Hpix.
  apply pixel_at_insert_ne; [lia | done | congruence | lia].
Qed.

(** X13: An atomic section of a compute thread writes at most one pixel: a
    pixel of the thread's own sector that held the white sentinel, which
    gets the colour of an iteration count between 1 and
    [MBR_MAX_ITERATIONS], never white again.  Every other pixel of the
    raster is left as it was, so between two resets no pixel is painted
    twice. *)
Theorem worker_paints_white_pixel_of_its_sector (st st' : engine) (i : nat) :
  reachable st → thread_step i st = Some st' →
  pixbuf st' = pixbuf st
  ∨ ∃ x y n,
      p_left (slot_params (Z.of_nat i)) <= x <= p_right (slot_params (Z.of_nat i))
      ∧ 0 <= x < WIDTH ∧ 0 <= y < HEIGHT
      ∧ 1 <= n <= MBR_MAX_ITERATIONS
      ∧ pixel_at (pixbuf st) x y = Some pix_white
      ∧ pixel_at (pixbuf st') x y = Some (get_color n)
      ∧ get_color n ≠ pix_white
      ∧ length (pixbuf st') = length (pixbuf st)
      ∧ ∀ x' y', 0 <= x' < WIDTH → (x', y') ≠ (x, y) →
                 pixel_at (pixbuf st') x' y' = pixel_at (pixbuf st) x' y'.
Proof. intros Hst Hs. apply thread_step_frame; [by apply reachable_inv | exact Hs]. Qed.

Lemma worker_paints_white_pixel_of_its_sector_witness :
  ∃ st', thread_step 0 started = Some st'
         ∧ length (pixbuf st') = length (pixbuf started).
Proof.
  destruct (thread_step_progress 0 started (T_start (slot_params 0))
              (reachable_inv _ started_reachable) eq_refl) as (st' & _ & Hs & _).
  exists st'. split; [exact Hs|].
  destruct (worker_paints_white_pixel_of_its_sector started st' 0
              started_reachable Hs) as [H|(x & y & n & _ & _ & _ & _ & _ & _ & _ & H & _)].
  - by rewrite H.
  - exact H.
Defined.

(** ** A key press restarts the computation *)




(** ** The way out of the program *)










(** ** A restart while the workers run *)




(** The threads of a state in which the main thread is in its loop can
    be run to their end, and what every step of a thread keeps still
    holds then. *)
Lemma workers_finish_keeping (P : engine → Prop) :
  (∀ st i st', engine_inv st → P st → thread_step i st = Some st' → P st') →
  ∀ (m : nat) (st : engine),
    engine_inv st → exited st = None → pending st = [] → P st →
    pool_rem (threads st) <= Z.of_nat m →
    ∃ st', rtc step st st' ∧ exited st' = None ∧ pending st' = []
           ∧ (∀ i t, threads st' !! i = Some t → t = None) ∧ P st'.
Proof.
  intros Hkeep. induction m as [|m IH]; intros st Hinv He Hp HP Hm.
  - exists st. split; [apply rtc_refl|]. split; [done|]. split; [done|].
    split; [|done].
    destruct (all_gone_or_live (threads st)) as [H|(i & t & Hi)]; [done|].
    destruct (thread_step_progress i st t Hinv Hi) as (st' & t' & _ & _ & Hlt).
    pose proof (thread_rem_nonneg t').
    pose proof (pool_rem_insert (threads st) i (Some t) None Hi) as Hins.
    pose proof (pool_rem_nonneg (<[i := None]> (threads st))).
    change (thread_rem None) with 0 in Hins. lia.
  - destruct (all_gone_or_live (threads st)) as [H|(i & t & Hi)].
    { exists st. split; [apply rtc_refl|]. done. }
    destruct (thread_step_progress i st t Hinv Hi) as (st1 & t' & Hs & Hts & Hlt).
    pose proof (thread_step_cases i st st1 Hs) as (_ & _ & _ & Hp1 & He1 & _).
    destruct (IH st1) as (st' & Hrtc & He' & Hp' & Hall & HP').
    + by eapply thread_step_inv.
    + by rewrite He1.
    + by rewrite Hp1.
    + by eapply Hkeep.
    + rewrite Hts, (pool_rem_insert _ _ _ _ Hi). lia.
    + exists st'. split; [|done].
      eapply rtc_l; [|exact Hrtc]. exact (step_thread st i st1 He Hs).
Qed.





(** ** The escape test *)

(** The sign of a dyadic is the sign of its mantissa. *)
Lemma to_Q_nonneg (x : dyadic) : (0 <= to_Q x)%Q ↔ 0 <= mant x.
Proof.
  destruct x as [m e]. cbn [mant].
  rewrite <- (to_Q_le_same 0 m e).
  assert (E : (to_Q (Dy 0 e) == 0)%Q) by (unfold to_Q; cbn [mant expo]; ring).
  by rewrite E.
Qed.

(** [mpfr_cmp_d (x, d) >= 0] says that [x] is not below [d]. *)
Lemma mpfr_cmp_d_ge (x d : dyadic) :
  (mpfr_cmp_d x d >=? 0) = true ↔ (to_Q d <= to_Q x)%Q.
Proof.
  unfold mpfr_cmp_d, dy_cmp.
  pose proof (to_Q_nonneg (ex_sub x d)) as H. rewrite to_Q_ex_sub in H.
  split.
  - intros Hs. assert (0 <= mant (ex_sub x d)) by lia. apply H in H0. lra.
  - intros Hle. assert (Hm : 0 <= mant (ex_sub x d)) by (apply H; lra). lia.
Qed.

(** The value the loop compares with the threshold is never above the
    exact square of the modulus: each of the three operations rounds
    down. *)
Lemma mbr_dist_le (cur : img) :
  (to_Q (fst (mbr_dist cur))
   <= to_Q (img_r cur) * to_Q (img_r cur) + to_Q (img_i cur) * to_Q (img_i cur))%Q.
Proof.
  unfold mbr_dist. cbn [fst].
  eapply Qle_trans; [apply mpfr_add_le|].
  apply Qplus_le_compat; unfold mpfr_mul;
    (eapply Qle_trans; [apply rndd_le|]); rewrite to_Q_ex_mul; apply Qle_refl.
Qed.

Lemma threshold_value : (4 <= to_Q (double_of_int MBR_DIVERGE_THRESHOLD))%Q.
Proof. vm_compute. discriminate. Qed.

Lemma mbr_diverged_eq (cur : img) :
  mbr_diverged cur =
  (mpfr_cmp_d (fst (mbr_dist cur)) (double_of_int MBR_DIVERGE_THRESHOLD) >=? 0).
Proof. unfold mbr_diverged. reflexivity. Qed.

Lemma mbr_diverged_sound (cur : img) :
  mbr_diverged cur = true →
  (4 <= to_Q (img_r cur) * to_Q (img_r cur)
        + to_Q (img_i cur) * to_Q (img_i cur))%Q.
Proof.
  intros Hd. rewrite mbr_diverged_eq in Hd. apply mpfr_cmp_d_ge in Hd.
  exact (Qle_trans _ _ _ threshold_value (Qle_trans _ _ _ Hd (mbr_dist_le cur))).
Qed.

(** The loop left by [break] has its index on a value that passes the
    test. *)
Lemma mbr_iterate_escape (inp : img) :
  fst (mbr_iterate inp) < MBR_MAX_ITERATIONS →
  mbr_diverged (orbit inp (Z.to_nat (fst (mbr_iterate inp)))) = true.
Proof.
  destruct (mbr_loop_first inp (Z.to_nat MBR_MAX_ITERATIONS) 0 0 cur_init
              eq_refl (orbit_0 inp)) as [_ H2].
  rewrite max_iterations_Z in H2. revert H2. unfold mbr_iterate.
  generalize (mbr_loop (Z.to_nat MBR_MAX_ITERATIONS) 0 inp cur_init).
  intros [i d]. cbn [fst]. intros H2 Hlt. apply H2. lia.
Qed.

(** X17: The escape test never fires early: when the loop leaves with
    [diverge = 1], the value it was testing, the result of as many
    updates as the index it reports, has a modulus of at least 2 in exact
    arithmetic.  The rounding can delay an escape, but never report one
    that the computed orbit does not show. *)
Theorem escape_test_sound (inp : img) :
  (∀ cur, mbr_diverged cur = true →
          (4 <= to_Q (img_r cur) * to_Q (img_r cur)
                + to_Q (img_i cur) * to_Q (img_i cur))%Q)
  ∧ (fst (mbr_iterate inp) < MBR_MAX_ITERATIONS →
     let z := orbit inp (Z.to_nat (fst (mbr_iterate inp))) in
     (4 <= to_Q (img_r z) * to_Q (img_r z) + to_Q (img_i z) * to_Q (img_i z))%Q).
Proof.
  split; [exact mbr_diverged_sound|].
  intros Hlt. exact (mbr_diverged_sound _ (mbr_iterate_escape inp Hlt)).
Qed.

(** ** A pass that is not interrupted *)

Lemma slot_sector (i : nat) (x y : Z) :
  (i < Z.to_nat THR_MAX_ACTIVE)%nat →
  in_sector (slot_params (Z.of_nat i)) x y ↔
  Z.of_nat i * 341 <= x <= Z.of_nat i * 341 + 340 ∧ 0 <= y <= 767.
Proof.
  intros Hi. unfold in_sector, slot_params, WIDTH, HEIGHT, THR_MAX_ACTIVE.
  cbn [p_left p_right p_top p_bottom]. change (1366 ÷ 4) with 341. lia.
Qed.

(** A sector whose pixels are not touched stays as it is. *)
Lemma sector_ok_frame (b : bounds) (buf buf' : list pixel) (p : mandelbrot_params)
    (t : option thread) :
  (∀ x y, in_sector p x y → pixel_at buf' x y = pixel_at buf x y) →
  sector_ok b buf p t → sector_ok b buf' p t.
Proof.
  intros Hsame. unfold sector_ok, painted.
  destruct t as [[q|q x0 y0|q]|].
  - intros [-> H]. split; [done|]. intros x y Hin. rewrite Hsame by done. by apply H.
  - intros (-> & Hx & Hy & H). split; [done|]. split; [done|]. split; [done|].
    intros x y Hin. rewrite Hsame by done. by apply H.
  - intros [-> H]. split; [done|]. intros x y Hin. rewrite Hsame by done. by apply H.
  - intros H x y Hin. rewrite Hsame by done. by apply H.
Qed.

(** A step of the thread of slot [i] that leaves the raster alone, or
    writes one pixel of the sector of slot [i]. *)
Lemma pass_inv_update (b : bounds) (st st' : engine) (i : nat)
    (p : mandelbrot_params) (t' : option thread) :
  pass_inv b st → (i < Z.to_nat THR_MAX_ACTIVE)%nat →
  p = slot_params (Z.of_nat i) →
  bnd st' = bnd st →
  threads st' = <[i := t']> (threads st) →
  (pixbuf st' = pixbuf st
   ∨ ∃ x y c, in_sector p x y
              ∧ 0 <= pixel_index x y
              ∧ pixbuf st' = <[Z.to_nat (pixel_index x y) := c]> (pixbuf st)) →
  sector_ok b (pixbuf st') p t' →
  pass_inv b st'.
Proof.
  intros (Hb & Hlen & Hmargin & Hsec) Hi -> Hb' Hts Hpix Hnew.
  assert (Hother : ∀ x' y', 0 <= x' < WIDTH →
                     ¬ (Z.of_nat i * 341 <= x' <= Z.of_nat i * 341 + 340) →
                     pixel_at (pixbuf st') x' y' = pixel_at (pixbuf st) x' y').
  { intros x' y' Hx' Hout.
    destruct Hpix as [->|(x & y & c & Hin & Hidx & ->)]; [done|].
    apply (slot_sector i x y Hi) in Hin.
    apply pixel_at_insert_other; [|done| |done].
    - unfold WIDTH, THR_MAX_ACTIVE in *. lia.
    - lia. }
  split; [by rewrite Hb'|]. split; [by rewrite Hts, length_insert|].
  split.
  { intros x' y' Hx' Hy'. rewrite Hother; [by apply Hmargin| |].
    - unfold THR_MAX_ACTIVE, WIDTH in *. change (1366 ÷ 4) with 341 in Hx'. lia.
    - unfold THR_MAX_ACTIVE, WIDTH in *. change (1366 ÷ 4) with 341 in Hx'. lia. }
  intros j t Hj. rewrite Hts in Hj.
  apply list_lookup_insert_Some in Hj as [(<- & <- & _)|[Hne Hj]]; [exact Hnew|].
  assert (Hj4 : (j < Z.to_nat THR_MAX_ACTIVE)%nat).
  { rewrite <- Hlen. by eapply lookup_lt_Some. }
  apply (sector_ok_frame b (pixbuf st)); [|by apply Hsec].
  intros x' y' Hin. apply (slot_sector j x' y' Hj4) in Hin.
  apply Hother; [unfold WIDTH, THR_MAX_ACTIVE in *; lia | lia].
Qed.

(** Every step of a compute thread keeps the sectors in order. *)
Lemma pass_step (b : bounds) (st st' : engine) (i : nat) :
  pass_inv b st → thread_step i st = Some st' → pass_inv b st'.
Proof.
  intros Hinv Hs. pose proof Hinv as (Hb & Hlen & Hmargin & Hsec).
  unfold thread_step in Hs.
  destruct (threads st !! i) as [[t|]|] eqn:Ht; [|done|done].
  assert (Hi : (i < Z.to_nat THR_MAX_ACTIVE)%nat).
  { rewrite <- Hlen. by eapply lookup_lt_Some. }
  pose proof (Hsec i _ Ht) as Hok.
  pose proof (slot_sector i) as Hcols.
  remember (slot_params (Z.of_nat i)) as p eqn:Ep.
  destruct t as [q|q x0 y0|q]; cbn [sector_ok] in Hok.
  - destruct Hok as [-> Hwhite]. injection Hs as <-.
    apply (pass_inv_update b st _ i p (Some (T_scan p (p_left p) (p_bottom p))));
      [done | done | done | reflexivity | reflexivity | by left |].
    cbn [sector_ok]. split; [done|]. split; [lia|]. split; [lia|].
    intros x y Hin. split; [|intros _; by apply Hwhite].
    intros Hsc. exfalso. destruct Hin as [Hx Hy]. unfold scanned in Hsc. lia.
  - destruct Hok as (-> & Hx0 & Hy0 & Hpix).
    destruct (y0 >? p_top p) eqn:Ey.
    { injection Hs as <-.
      apply (pass_inv_update b st _ i p (Some (T_release p)));
        [done | done | done | reflexivity | reflexivity | by left |].
      cbn [sector_ok]. split; [done|]. intros x y Hin.
      apply (Hpix x y Hin). destruct Hin as [Hx Hy]. unfold scanned. lia. }
    destruct (x0 >? p_right p) eqn:Ex.
    { injection Hs as <-.
      apply (pass_inv_update b st _ i p (Some (T_scan p (p_left p) (y0 + 1))));
        [done | done | done | reflexivity | reflexivity | by left |].
      cbn [sector_ok]. split; [done|]. split; [lia|]. split; [lia|].
      intros x y Hin. destruct (Hpix x y Hin) as [H1 H2].
      destruct Hin as [Hx Hy]. unfold scanned in *.
      split; intros Hsc; [apply H1 | apply H2]; lia. }
    assert (Hin0 : in_sector p x0 y0) by (unfold in_sector; lia).
    assert (Hw : pixel_at (pixbuf st) x0 y0 = Some pix_white).
    { apply (Hpix x0 y0 Hin0). unfold scanned. lia. }
    rewrite Hw in Hs. destruct (decide (pix_white = pix_white)); [|done].
    injection Hs as <-.
    assert (Hidx : 0 <= pixel_index x0 y0
                   ∧ (Z.to_nat (pixel_index x0 y0) < length (pixbuf st))%nat).
    { unfold pixel_at in Hw. destruct (pixel_index x0 y0 <? 0) eqn:E; [done|].
      split; [lia|]. by eapply lookup_lt_Some. }
    apply (pass_inv_update b st _ i p (Some (T_scan p (x0 + 1) y0)));
      [done | done | done | reflexivity | reflexivity | |].
    { right. exists x0, y0, (get_color (pixel_iterations (bnd st) x0 y0)).
      split; [done|]. split; [lia|]. reflexivity. }
    cbn [sector_ok with_threads with_pixbuf pixbuf].
    split; [done|]. split; [lia|]. split; [lia|].
    assert (Hc0 : 0 <= x0 < WIDTH) by (apply Hcols in Hin0; [|done]; unfold WIDTH, THR_MAX_ACTIVE in *; lia).
    intros x y Hin. destruct (Hpix x y Hin) as [H1 H2].
    assert (Hc : 0 <= x < WIDTH) by (apply Hcols in Hin; [|done]; unfold WIDTH, THR_MAX_ACTIVE in *; lia).
    destruct (decide ((x0, y0) = (x, y))) as [[= <- <-]|Hne].
    + split; [|intros Hns; exfalso; apply Hns; unfold scanned; lia].
      intros _. unfold painted, pixel_at.
      destruct (pixel_index x0 y0 <? 0) eqn:E; [lia|].
      rewrite <- Hb. apply list_lookup_insert_eq. exact (proj2 Hidx).
    + unfold painted in *.
      rewrite (pixel_at_insert_ne _ _ x0 y0 x y Hc0 Hc Hne (proj1 Hidx)).
      unfold scanned in *.
      split; intros Hsc; [apply H1 | apply H2].
      * destruct (decide (y = y0)) as [->|?]; [|lia].
        destruct (decide (x = x0)) as [->|?]; [congruence | lia].
      * lia.
  - destruct Hok as [-> Hp].
    assert (E : st' = with_threads (<[i := None]> (threads st))
                        (if thr_index p >=? 0
                         then with_live (<[Z.to_nat (thr_index p) := false]> (live_threads st))
                                        (num_live_threads st - 1) st
                         else st)).
    { injection Hs as <-. by destruct (thr_index p >=? 0). }
    subst st'.
    apply (pass_inv_update b st _ i p None); try done.
    + by destruct (thr_index p >=? 0).
    + left. by destruct (thr_index p >=? 0).
    + cbn [sector_ok]. intros x y Hin. cbn [with_threads pixbuf].
      destruct (thr_index p >=? 0); by apply Hp.
Qed.

Lemma pixel_at_replicate (c : pixel) (x y : Z) :
  0 <= x < WIDTH → 0 <= y < HEIGHT →
  pixel_at (replicate (Z.to_nat (WIDTH * HEIGHT)) c) x y = Some c.
Proof.
  intros Hx Hy. unfold pixel_at.
  pose proof (pixel_index_range x y Hx Hy) as Hi.
  destruct (pixel_index x y <? 0) eqn:E; [lia|].
  apply lookup_replicate_2. lia.
Qed.

(** A pass starts in order: four threads before their first pixel and
    the raster white. *)
Lemma pass_inv_initial (st : engine) :
  threads st = fresh_threads →
  pixbuf st = replicate (Z.to_nat (WIDTH * HEIGHT)) pix_white →
  pass_inv (bnd st) st.
Proof.
  intros Hts Hpix.
  split; [done|]. split; [by rewrite Hts|].
  split.
  { intros x y Hx Hy. rewrite Hpix. apply pixel_at_replicate; [|done].
    unfold THR_MAX_ACTIVE, WIDTH in *. change (1366 ÷ 4) with 341 in Hx. lia. }
  intros i t Ht.
  assert (Hi : (i < Z.to_nat THR_MAX_ACTIVE)%nat).
  { apply lookup_lt_Some in Ht. by rewrite Hts in Ht. }
  assert (Et : t = Some (T_start (slot_params (Z.of_nat i)))).
  { rewrite Hts in Ht. destruct i as [|[|[|[|i]]]]; cbn in Ht; [..|done];
      by injection Ht as <-. }
  subst t. cbn [sector_ok]. split; [done|].
  intros x y Hin. apply (slot_sector i x y Hi) in Hin.
  rewrite Hpix. apply pixel_at_replicate; unfold WIDTH, HEIGHT, THR_MAX_ACTIVE in *; lia.
Qed.

Lemma pass_inv_run (b : bounds) (st st' : engine) :
  pass_inv b st → rtc worker_step st st' → pass_inv b st'.
Proof.
  intros Hinv Hrun. induction Hrun as [|s1 s2 s3 [_ [i Hs]] _ IH]; [done|].
  apply IH. by eapply pass_step.
Qed.

Lemma started_pixbuf :
  pixbuf started = replicate (Z.to_nat (WIDTH * HEIGHT)) pix_white.
Proof.
  unfold started.
  rewrite run_main_S with (a := A_flush pix_white) (rest := start_mandelbrot)
    by reflexivity.
  cbn [exec]. unfold with_pixbuf, with_pending, initial_engine.
  cbn [bnd pixbuf threads live_threads num_live_threads pending stdout exited].
  rewrite flush_pixels_replicate by apply length_replicate.
  by destruct (run_start_mandelbrot initial_bounds
                 (replicate (Z.to_nat (WIDTH * HEIGHT)) pix_white)
                 (replicate (Z.to_nat THR_MAX_ACTIVE) None)
                 (replicate (Z.to_nat THR_MAX_ACTIVE) false) 0 [] eq_refl eq_refl)
    as (_ & E & _).
Qed.

(** Steps of compute threads are steps of the program, and they leave
    the main thread where it is. *)
Lemma worker_steps_reachable (s0 st : engine) :
  rtc worker_step s0 st → reachable s0 →
  reachable st ∧ exited st = exited s0 ∧ pending st = pending s0.
Proof.
  intros Hrun Hr0. induction Hrun as [|s1 s2 s3 [He [i Hs]] _ IH]; [done|].
  destruct (thread_step_cases i s1 s2 Hs) as (_ & _ & _ & Hp & He' & _).
  destruct IH as (H1 & H2 & H3).
  - eapply rtc_r; [exact Hr0|]. by eapply step_thread.
  - split; [exact H1|]. split; congruence.
Qed.

(** A pass in which only the compute threads take steps can be taken to
    its end. *)
Lemma workers_can_finish (s0 st : engine) :
  rtc worker_step s0 st → reachable s0 → exited s0 = None → pending s0 = [] →
  ∃ st', rtc worker_step st st' ∧ ∀ i t, threads st' !! i = Some t → t = None.
Proof.
  intros Hrun Hr0 He0 Hp0.
  destruct (worker_steps_reachable s0 st Hrun Hr0) as (Hr & He & Hp).
  rewrite He0 in He. rewrite Hp0 in Hp.
  pose proof (pool_rem_nonneg (threads st)) as Hnn.
  destruct (workers_finish_keeping
              (λ s, exited s = None ∧ rtc worker_step st s)) with
    (m := Z.to_nat (pool_rem (threads st))) (st := st)
    as (st' & _ & _ & _ & Hall & _ & Hrun').
  - intros s i s' _ [Hes Hrs] Hs.
    destruct (thread_step_cases i s s' Hs) as (_ & _ & _ & _ & He' & _).
    split; [congruence|]. eapply rtc_r; [exact Hrs|]. split; [exact Hes|]. by exists i.
  - by apply reachable_inv.
  - exact He.
  - exact Hp.
  - split; [exact He | apply rtc_refl].
  - rewrite Z2Nat.id by exact Hnn. lia.
  - by exists st'.
Qed.

(** X18: A pass that no key press interrupts is correct.  From a state in
    which a restart has just finished (the raster white, four threads
    before their first pixel) and while only compute threads take steps,
    in whatever order: every pixel of the raster is white or shows the
    palette colour of its own iteration count under the current bounds;
    once all four threads have finished, every pixel of the four sectors
    (columns 0 to 1363) shows that colour; and the threads can always be
    run until all four have finished. *)
Theorem uninterrupted_pass_paints_sectors (s0 st : engine) :
  threads s0 = fresh_threads →
  pixbuf s0 = replicate (Z.to_nat (WIDTH * HEIGHT)) pix_white →
  rtc worker_step s0 st →
  bnd st = bnd s0
  ∧ (∀ x y, 0 <= x < WIDTH → 0 <= y < HEIGHT →
            pixel_at (pixbuf st) x y = Some pix_white
            ∨ pixel_at (pixbuf st) x y
              = Some (get_color (pixel_iterations (bnd s0) x y)))
  ∧ ((∀ i t, threads st !! i = Some t → t = None) →
     ∀ x y, 0 <= x < THR_MAX_ACTIVE * (WIDTH ÷ THR_MAX_ACTIVE) → 0 <= y < HEIGHT →
            pixel_at (pixbuf st) x y
            = Some (get_color (pixel_iterations (bnd s0) x y)))
  ∧ (reachable s0 → exited s0 = None → pending s0 = [] →
     ∃ st', rtc worker_step st st'
            ∧ ∀ i t, threads st' !! i = Some t → t = None).
Proof.
  intros Hts Hpix Hrun.
  pose proof (pass_inv_run _ _ _ (pass_inv_initial s0 Hts Hpix) Hrun)
    as (Hb & Hlen & Hmargin & Hsec).
  split; [exact Hb|].
  apply and_assoc. split; [|by apply workers_can_finish].
  assert (Hslot : ∀ x y, 0 <= x < 1364 → 0 <= y < HEIGHT →
                    ∃ i t, threads st !! i = Some t
                           ∧ in_sector (slot_params (Z.of_nat i)) x y).
  { intros x y Hx Hy.
    assert (Hi : (Z.to_nat (x / 341) < Z.to_nat THR_MAX_ACTIVE)%nat).
    { unfold THR_MAX_ACTIVE. Z.div_mod_to_equations. lia. }
    destruct (lookup_lt_is_Some_2 (threads st) (Z.to_nat (x / 341))) as [t Ht];
      [by rewrite Hlen|].
    exists (Z.to_nat (x / 341)), t. split; [exact Ht|].
    apply slot_sector; [done|]. unfold HEIGHT in Hy.
    Z.div_mod_to_equations. lia. }
  split.
  - intros x y Hx Hy.
    destruct (decide (x < 1364)) as [Hlt|Hge].
    + destruct (Hslot x y ltac:(lia) Hy) as (i & t & Ht & Hin).
      pose proof (Hsec i t Ht) as Hok.
      destruct t as [[q|q x0 y0|q]|]; cbn [sector_ok] in Hok.
      * left. by apply Hok.
      * destruct Hok as (_ & _ & _ & Hp). destruct (Hp x y Hin) as [H1 H2].
        destruct (decide (y < y0 ∨ (y = y0 ∧ x < x0))) as [Hsc|Hns];
          [right; by apply H1 | left; by apply H2].
      * right. by apply Hok.
      * right. by apply Hok.
    + left. apply Hmargin; [|done]. unfold THR_MAX_ACTIVE, WIDTH in *.
      change (1366 ÷ 4) with 341. lia.
  - intros Hdone x y Hx Hy.
    unfold THR_MAX_ACTIVE, WIDTH in Hx. change (1366 ÷ 4) with 341 in Hx.
    destruct (Hslot x y ltac:(lia) Hy) as (i & t & Ht & Hin).
    pose proof (Hsec i t Ht) as Hok. rewrite (Hdone i t Ht) in Hok.
    by apply Hok.
Qed.

Lemma uninterrupted_pass_paints_sectors_witness :
  pixel_at (pixbuf started) 0 0 = Some pix_white
  ∨ pixel_at (pixbuf started) 0 0
    = Some (get_color (pixel_iterations (bnd started) 0 0)).
Proof.
  destruct (uninterrupted_pass_paints_sectors started started eq_refl
              started_pixbuf (rtc_refl _ _)) as (_ & H & _).
  apply H; unfold WIDTH, HEIGHT; lia.
Defined.
